(** * Civic-Sight: electoral-report field extraction

    A shallow embedding of [pdf_parser.py] (class [PDFParser]): the
    whitespace normalisation, the twenty regular expressions and the
    backtracking search that evaluates them, the four extraction loops of
    [extract_data_from_text], the batch loop [process_all_pdfs] and the
    exporter [save_to_excel].

    A Python [str] is a sequence of Unicode code points, so a text is a
    list of code points; a [dict] is an association list in insertion
    order; a raised exception is a value of [result]. *)

From Stdlib Require Import NArith List Bool String Ascii Lia Arith.
Import ListNotations.

Local Open Scope N_scope.

(** ** Python values *)

Definition char := N.
Definition text := list char.

Definition ch (a : ascii) : char := N_of_ascii a.

(** A literal of the source, written as a Rocq string of ASCII characters. *)
Definition str (s : string) : text := map ch (list_ascii_of_string s).

Definition NL : char := 0x0A.
Definition SPACE : char := 0x20.
Definition COMMA : char := 0x2C.

Inductive exn : Type :=
| AttributeError      (* a method called on [None] *)
| KeyError            (* subscript of a missing dict key *)
| ValueError          (* pandas: length mismatch of the new column labels *)
| NotADirectoryError  (* [os.listdir] of a path that is a plain file *)
| FileNotFoundError   (* [os.makedirs] of the empty path *)
| FileExistsError     (* [os.makedirs] of a path that is a plain file *)
| PermissionError
| IllegalCharacterError   (* openpyxl: a control character in a cell *)
| OtherException (name : string).

Inductive result (A : Type) : Type :=
| Ok (a : A)
| Raise (e : exn).
Arguments Ok {A} a.
Arguments Raise {A} e.

Definition bind {A B} (r : result A) (f : A -> result B) : result B :=
  match r with
  | Ok a => f a
  | Raise e => Raise e
  end.

Notation "x <- r ;; k" := (bind r (fun x => k))
  (at level 61, r at next level, right associativity).

Fixpoint text_eqb (a b : text) : bool :=
  match a, b with
  | [], [] => true
  | x :: a', y :: b' => (x =? y) && text_eqb a' b'
  | _, _ => false
  end.

(** ** The [str] methods the parser calls *)

(** [str.isspace] on one code point, which is also the class [\s] of a
    [str] pattern (CPython [_PyUnicode_IsWhitespace]). *)
Definition is_space (c : char) : bool :=
  ((0x09 <=? c) && (c <=? 0x0D)) || ((0x1C <=? c) && (c <=? 0x20))
  || (c =? 0x85) || (c =? 0xA0) || (c =? 0x1680)
  || ((0x2000 <=? c) && (c <=? 0x200A))
  || (c =? 0x2028) || (c =? 0x2029) || (c =? 0x202F) || (c =? 0x205F)
  || (c =? 0x3000).

Fixpoint lstrip (s : text) : text :=
  match s with
  | c :: s' => if is_space c then lstrip s' else s
  | [] => []
  end.

Definition rstrip (s : text) : text := rev (lstrip (rev s)).

(** [s.strip()] *)
Definition strip (s : text) : text := rstrip (lstrip s).

Definition is_upper_ascii (c : char) : bool := (0x41 <=? c) && (c <=? 0x5A).

(** [str.lower] on one code point.  The table is the part of Unicode's
    lowercase mapping that touches ASCII: the letters A-Z, U+0130 (capital
    I with dot above, whose lowercase is [i] followed by U+0307) and U+212A
    (Kelvin sign).  Every other cased letter lowercases to code points
    outside ASCII and is left as it is here; the parser only compares
    lowered text with ASCII literals. *)
Definition lower_char (c : char) : text :=
  if is_upper_ascii c then [c + 32]
  else if c =? 0x130 then [0x69; 0x307]
  else if c =? 0x212A then [0x6B]
  else [c].

(** [s.lower()] *)
Definition lower (s : text) : text := flat_map lower_char s.

(** [s.startswith(prefix)] *)
Fixpoint startswith (prefix s : text) : bool :=
  match prefix, s with
  | [], _ => true
  | p :: prefix', c :: s' => (p =? c) && startswith prefix' s'
  | _ :: _, [] => false
  end.

(** [s.startswith((p1, p2, ...))] *)
Definition startswith_any (prefixes : list text) (s : text) : bool :=
  existsb (fun p => startswith p s) prefixes.

(** [s.endswith(suffix)] *)
Definition endswith (suffix s : text) : bool :=
  startswith (rev suffix) (rev s).

(** [s.replace(old, new)] for a non-empty [old]: occurrences are replaced
    from the left and do not overlap; [skip] counts the characters of the
    occurrence just replaced that are still to be dropped. *)
Fixpoint replace_from (old new s : text) (skip : nat) : text :=
  match s with
  | [] => []
  | c :: s' =>
      match skip with
      | S n => replace_from old new s' n
      | O => if startswith old s
             then new ++ replace_from old new s' (pred (List.length old))
             else c :: replace_from old new s' 0
      end
  end.

Definition replace (old new s : text) : text := replace_from old new s 0.

(** ** Regular expressions: the subset of [re] syntax the parser uses *)

(** An item of a bracketed set. *)
Inductive set_item : Type :=
| SChar (c : char)          (* a single character *)
| SRange (lo hi : char)     (* [lo-hi] *)
| SSpace.                   (* [\s] *)

Definition charset := list set_item.

Inductive regex : Type :=
| Eps                                                   (* empty pattern *)
| Str (w : text)                                        (* literal characters *)
| Set_ (cs : charset)                                   (* [...] or \s, once *)
| Rep (cs : charset) (lo : nat) (hi : option nat) (greedy : bool)
                                          (* [...]* + ? {m,n} and lazy forms *)
| Opt (r : regex)                                       (* (?:r)? *)
| Seq (r1 r2 : regex)
| Alt (r1 r2 : regex)                                   (* r1|r2 *)
| Group (r : regex).                                    (* (r), group 1 *)

Fixpoint cat (rs : list regex) : regex :=
  match rs with
  | [] => Eps
  | [r] => r
  | r :: rs' => Seq r (cat rs')
  end.

Fixpoint alt (rs : list regex) : regex :=
  match rs with
  | [] => Eps
  | [r] => r
  | r :: rs' => Alt r (alt rs')
  end.

Definition lit (s : string) : regex := Str (str s).
Definition plus (cs : charset) : regex := Rep cs 1 None true.
Definition plus_lazy (cs : charset) : regex := Rep cs 1 None false.
Definition star (cs : charset) : regex := Rep cs 0 None true.
Definition opt1 (cs : charset) : regex := Rep cs 0 (Some 1%nat) true.
Definition between (m n : nat) (cs : charset) : regex := Rep cs m (Some n) true.

(** *** Character matching under [re.IGNORECASE]

    Every search of the parser passes [re.IGNORECASE] on a [str] pattern.
    The compiler lowers each literal and each member of a set and adds the
    characters of [_ignorecase_fixes]; the matcher lowers the subject
    character with the simple (one code point) lowercase mapping. *)

(** [_sre.unicode_tolower], the simple lowercase mapping, tabulated like
    [lower_char]: the code points whose lowercase is an ASCII letter.  The
    lowercase of any other cased letter lies outside ASCII and differs from
    the two non-ASCII members the fixes add, so leaving the letter as it is
    does not change what the patterns match. *)
Definition sre_lower (c : char) : char :=
  if is_upper_ascii c then c + 32
  else if c =? 0x130 then 0x69
  else if c =? 0x212A then 0x6B
  else c.

(** [_ignorecase_fixes]: lowercase letters with the same uppercase; the
    entries for [i] (dotless i) and [s] (long s). *)
Definition fixes (lo : char) : list char :=
  if lo =? 0x69 then [0x131]
  else if lo =? 0x131 then [0x69]
  else if lo =? 0x73 then [0x17F]
  else if lo =? 0x17F then [0x73]
  else [].

(** Pattern character [c] against subject character [x].  For a
    character without case the compiler emits a plain literal; the formula
    covers it, because only [c] itself lowers to such a [c]. *)
Definition lit_ci (c x : char) : bool :=
  let lo := sre_lower c in
  let l := sre_lower x in
  (l =? lo) || existsb (N.eqb l) (fixes lo).

Definition range_chars (lo hi : char) : list char :=
  map (fun i => lo + N.of_nat i) (seq 0 (N.to_nat (hi + 1 - lo))).

Definition item_ci (it : set_item) (x : char) : bool :=
  match it with
  | SChar c => lit_ci c x
  | SRange lo hi => existsb (fun c => lit_ci c x) (range_chars lo hi)
  | SSpace => is_space (sre_lower x)
  end.

Definition set_ci (cs : charset) (x : char) : bool :=
  existsb (fun it => item_ci it x) cs.

(** *** The backtracking matcher

    [exec r s g k] tries pattern [r] at the front of [s] with group 1
    currently [g] and hands the rest of the text and the group to the
    continuation [k]; alternatives are explored in the order of [sre]: the
    left branch of [|] first, a greedy repeat longest first, a lazy repeat
    shortest first. *)

(** Group 1 of a match: [None] when the group took no part in it. *)
Definition capture := option text.

Definition more (hi : option nat) : bool :=
  match hi with
  | Some O => false
  | _ => true
  end.

Definition dec (hi : option nat) : option nat := option_map pred hi.

Section Matcher.
Context {R : Type}.

Definition orelse (a : option R) (b : option R) : option R :=
  match a with
  | Some x => Some x
  | None => b
  end.

Definition stop_at (lo : nat) (s : text) (k : text -> option R) : option R :=
  match lo with
  | O => k s
  | S _ => None
  end.

Fixpoint rep_greedy (cs : charset) (lo : nat) (hi : option nat) (s : text)
         (k : text -> option R) : option R :=
  match s with
  | c :: s' =>
      if more hi && set_ci cs c
      then orelse (rep_greedy cs (pred lo) (dec hi) s' k) (stop_at lo s k)
      else stop_at lo s k
  | [] => stop_at lo s k
  end.

Fixpoint rep_lazy (cs : charset) (lo : nat) (hi : option nat) (s : text)
         (k : text -> option R) : option R :=
  orelse (stop_at lo s k)
    match s with
    | c :: s' =>
        if more hi && set_ci cs c
        then rep_lazy cs (pred lo) (dec hi) s' k
        else None
    | [] => None
    end.

Fixpoint match_str (w s : text) : option text :=
  match w, s with
  | [], _ => Some s
  | c :: w', x :: s' => if lit_ci c x then match_str w' s' else None
  | _ :: _, [] => None
  end.

Fixpoint exec (r : regex) (s : text) (g : capture)
         (k : text -> capture -> option R) : option R :=
  match r with
  | Eps => k s g
  | Str w =>
      match match_str w s with
      | Some s' => k s' g
      | None => None
      end
  | Set_ cs =>
      match s with
      | c :: s' => if set_ci cs c then k s' g else None
      | [] => None
      end
  | Rep cs lo hi true => rep_greedy cs lo hi s (fun s' => k s' g)
  | Rep cs lo hi false => rep_lazy cs lo hi s (fun s' => k s' g)
  | Opt r1 => orelse (exec r1 s g k) (k s g)
  | Seq r1 r2 => exec r1 s g (fun s' g' => exec r2 s' g' k)
  | Alt r1 r2 => orelse (exec r1 s g k) (exec r2 s g k)
  | Group r1 =>
      exec r1 s g
        (fun s' _ => k s' (Some (firstn (List.length s - List.length s') s)))
  end.
End Matcher.

(** [re.match(r, s, re.IGNORECASE)] reduced to what the parser reads of the
    match object: group 1. *)
Definition re_match (r : regex) (s : text) : option capture :=
  exec r s None (fun _ g => Some g).

(** [re.search(r, s, re.IGNORECASE)]: the match at the leftmost position
    that has one. *)
Fixpoint re_search (r : regex) (s : text) : option capture :=
  match re_match r s with
  | Some g => Some g
  | None =>
      match s with
      | [] => None
      | _ :: s' => re_search r s'
      end
  end.

(** [re.sub(r'\s+', ' ', s)]: every maximal run of whitespace becomes one
    space; [in_run] tells that the previous character belonged to a run
    already replaced. *)
Fixpoint sub_ws (in_run : bool) (s : text) : text :=
  match s with
  | [] => []
  | c :: s' =>
      if is_space c
      then (if in_run then sub_ws true s' else SPACE :: sub_ws true s')
      else c :: sub_ws false s'
  end.

Definition re_sub_ws (s : text) : text := sub_ws false s.

(** ** The patterns of [extract_data_from_text] *)

Definition ws : charset := [SSpace].                              (* \s *)
Definition colon_ws : charset := [SChar (ch ":"); SSpace].         (* [:\s] *)
Definition upper : charset := [SRange (ch "A") (ch "Z")].          (* [A-Z] *)
Definition alpha : charset :=
  [SRange (ch "A") (ch "Z"); SRange (ch "a") (ch "z")].            (* [A-Za-z] *)
Definition alpha_ws : charset :=
  [SRange (ch "A") (ch "Z"); SRange (ch "a") (ch "z"); SSpace].    (* [A-Za-z\s] *)
Definition digits_commas : charset :=
  [SRange (ch "0") (ch "9"); SChar COMMA].                         (* [0-9,] *)
(** The set of the two quote characters, U+0027 and U+0022, written [Q]
    in the comments below. *)
Definition quotes : charset := [SChar 0x27; SChar 0x22].
Definition newline : regex := Str [NL].                            (* \n *)

Definition constituency_patterns : list regex :=
  [ (* constituency\s+name[:\s]+([A-Za-z\s]+?)(?:\n|election|total) *)
    cat [lit "constituency"; plus ws; lit "name"; plus colon_ws;
         Group (plus_lazy alpha_ws);
         alt [newline; lit "election"; lit "total"]];
    (* constituency[:\s]+([A-Za-z\s]+?)(?:\n|election|total) *)
    cat [lit "constituency"; plus colon_ws;
         Group (plus_lazy alpha_ws);
         alt [newline; lit "election"; lit "total"]];
    (* ([A-Z][A-Za-z\s]+)\s+constituency *)
    cat [Group (cat [Set_ upper; plus alpha_ws]); plus ws; lit "constituency"];
    (* name[:\s]+([A-Za-z\s]+?)(?:\n|total|election) *)
    cat [lit "name"; plus colon_ws;
         Group (plus_lazy alpha_ws);
         alt [newline; lit "total"; lit "election"]];
    (* constituency[:\s]*([A-Za-z][A-Za-z\s]{3,30})(?:\s*\n|\s+election|\s+total) *)
    cat [lit "constituency"; star colon_ws;
         Group (cat [Set_ alpha; between 3 30 alpha_ws]);
         alt [cat [star ws; newline];
              cat [plus ws; lit "election"];
              cat [plus ws; lit "total"]]] ].

Definition number_group : regex := Group (plus digits_commas).  (* ([0-9,]+) *)

Definition elector_patterns : list regex :=
  [ (* total\s+(?:number\s+of\s+)?electors[:\s]+([0-9,]+) *)
    cat [lit "total"; plus ws;
         Opt (cat [lit "number"; plus ws; lit "of"; plus ws]);
         lit "electors"; plus colon_ws; number_group];
    (* electors[:\s]+([0-9,]+) *)
    cat [lit "electors"; plus colon_ws; number_group];
    (* total\s+electors[:\s]+([0-9,]+) *)
    cat [lit "total"; plus ws; lit "electors"; plus colon_ws; number_group];
    (* registered\s+voters[:\s]+([0-9,]+) *)
    cat [lit "registered"; plus ws; lit "voters"; plus colon_ws; number_group];
    (* total\s+registered[:\s]+([0-9,]+) *)
    cat [lit "total"; plus ws; lit "registered"; plus colon_ws; number_group] ].

Definition valid_votes_patterns : list regex :=
  [ (* total\s+(?:number\s+of\s+)?valid\s+votes\s+polled[:\s]+([0-9,]+) *)
    cat [lit "total"; plus ws;
         Opt (cat [lit "number"; plus ws; lit "of"; plus ws]);
         lit "valid"; plus ws; lit "votes"; plus ws; lit "polled";
         plus colon_ws; number_group];
    (* valid\s+votes\s+polled[:\s]+([0-9,]+) *)
    cat [lit "valid"; plus ws; lit "votes"; plus ws; lit "polled";
         plus colon_ws; number_group];
    (* total\s+valid\s+votes[:\s]+([0-9,]+) *)
    cat [lit "total"; plus ws; lit "valid"; plus ws; lit "votes";
         plus colon_ws; number_group];
    (* votes\s+polled[:\s]+([0-9,]+) *)
    cat [lit "votes"; plus ws; lit "polled"; plus colon_ws; number_group];
    (* total\s+votes\s+cast[:\s]+([0-9,]+) *)
    cat [lit "total"; plus ws; lit "votes"; plus ws; lit "cast";
         plus colon_ws; number_group] ].

Definition none_of_the_above : list regex :=   (* none\s+of\s+the\s+above *)
  [lit "none"; plus ws; lit "of"; plus ws; lit "the"; plus ws; lit "above"].

Definition nota_patterns : list regex :=
  [ (* none\s+of\s+the\s+above[:\s]+([0-9,]+) *)
    cat (none_of_the_above ++ [plus colon_ws; number_group]);
    (* nota[:\s]+([0-9,]+) *)
    cat [lit "nota"; plus colon_ws; number_group];
    (* votes\s+for\s+Q?none\s+of\s+the\s+aboveQ?[:\s]+([0-9,]+) *)
    cat ([lit "votes"; plus ws; lit "for"; plus ws; opt1 quotes]
         ++ none_of_the_above ++ [opt1 quotes; plus colon_ws; number_group]);
    (* Q?none\s+of\s+the\s+aboveQ?[:\s]+([0-9,]+) *)
    cat ([opt1 quotes] ++ none_of_the_above
         ++ [opt1 quotes; plus colon_ws; number_group]);
    (* option\s+nota[:\s]+([0-9,]+) *)
    cat [lit "option"; plus ws; lit "nota"; plus colon_ws; number_group] ].

(** ** Records: a [dict] keeps its keys in insertion order *)

Definition dict := list (string * text).

Fixpoint dict_set (k : string) (v : text) (d : dict) : dict :=
  match d with
  | [] => [(k, v)]
  | (k', v') :: d' =>
      if String.eqb k k' then (k', v) :: d' else (k', v') :: dict_set k v d'
  end.

Fixpoint dict_get (k : string) (d : dict) : option text :=
  match d with
  | [] => None
  | (k', v) :: d' => if String.eqb k k' then Some v else dict_get k d'
  end.

Definition keys (d : dict) : list string := map fst d.
Definition values (d : dict) : list text := map snd d.

(** ** [extract_data_from_text] *)

Definition reject_prefixes : list text :=
  [str "total"; str "number"; str "election"].

(** [len(name) > 3 and not name.lower().startswith(('total', 'number',
    'election'))] *)
Definition name_ok (name : text) : bool :=
  (3 <? List.length name)%nat
  && negb (startswith_any reject_prefixes (lower name)).

(** The loop over [constituency_patterns]; returning is the [break]. *)
Fixpoint constituency_loop (patterns : list regex) (clean_text : text)
         (data : dict) : result dict :=
  match patterns with
  | [] => Ok data
  | pattern :: rest =>
      match re_search pattern clean_text with
      | Some m =>
          match m with
          | None => Raise AttributeError      (* None.strip() *)
          | Some g =>
              let name := strip g in
              if name_ok name
              then Ok (dict_set "constituency_name" name data)
              else constituency_loop rest clean_text data
          end
      | None => constituency_loop rest clean_text data
      end
  end.

(** The loops over [elector_patterns], [valid_votes_patterns] and
    [nota_patterns], which differ in the key they assign only. *)
Fixpoint numeric_loop (key : string) (patterns : list regex)
         (clean_text : text) (data : dict) : result dict :=
  match patterns with
  | [] => Ok data
  | pattern :: rest =>
      match re_search pattern clean_text with
      | Some m =>
          match m with
          | None => Raise AttributeError      (* None.replace(...) *)
          | Some g => Ok (dict_set key (replace [COMMA] [] g) data)
          end
      | None => numeric_loop key rest clean_text data
      end
  end.

(** [re.sub(r'\s+', ' ', text.strip())] *)
Definition clean (txt : text) : text := re_sub_ws (strip txt).

Definition new_record (filename : text) : dict :=
  [("filename"%string, filename);
   ("constituency_name"%string, []);
   ("total_electors"%string, []);
   ("valid_votes_polled"%string, []);
   ("nota_votes"%string, [])].

(** The four loops, run on the cleaned text. *)
Definition extract_fields (clean_text filename : text) : result dict :=
  data <- constituency_loop constituency_patterns clean_text
            (new_record filename) ;;
  data <- numeric_loop "total_electors" elector_patterns clean_text data ;;
  data <- numeric_loop "valid_votes_polled" valid_votes_patterns clean_text data ;;
  data <- numeric_loop "nota_votes" nota_patterns clean_text data ;;
  Ok data.

Definition extract_data_from_text (txt filename : text) : result dict :=
  extract_fields (clean txt) filename.

(** ** The world of the batch run *)

(** What the file system holds at [config.PDF_FOLDER]. *)
Inductive folder : Type :=
| Missing
| PlainFile
| Directory (entries : list text).   (* [os.listdir], in its order *)

(** The lines the parser prints. *)
Inductive message : Type :=
| MockProcessing (pdf_path : text)
| ErrorProcessing (pdf_path : text)
| FolderNotFound (pdf_folder : text)
| NoPdfFilesFound (pdf_folder : text)
| FoundPdfFiles (n : nat)
| Processing (i n : nat) (pdf_file : text)
| FailedToExtract (pdf_file : text)
| NoDataToSave
| DataSavedTo (output_path : text)
| TotalRecords (n : nat).

(** A cell of a data frame: [None] is the NaN of a key a record lacks. *)
Definition cell := option text.

Record DataFrame : Type := {
  columns : list string;
  rows : list (list cell) }.

(** The last two fields are the part of the environment the code cannot
    see: what making a directory that is not there yet raises at a path (a
    plain file in the way, a parent that cannot be written, ...), and what
    the Excel writer behind pandas raises for a path and a frame (a cell it
    refuses, a file name without a known extension, a destination that cannot
    be written, ...); [None] when the call goes through. *)
Record world : Type := {
  pdf_folder : folder;
  directories : list text;              (* made by [os.makedirs] *)
  workbooks : list (text * DataFrame);  (* the frames [to_excel] wrote, newest first *)
  stdout : list message;
  mkdir_error : text -> option exn;
  write_error : text -> DataFrame -> option exn }.

(** config.py: the three path settings. *)
Record config : Type := {
  PDF_FOLDER : text;
  OUTPUT_FOLDER : text;
  OUTPUT_FILE : text }.

Definition io (A : Type) : Type := world -> result A * world.

Definition ret {A} (a : A) : io A := fun w => (Ok a, w).

Definition raise {A} (e : exn) : io A := fun w => (Raise e, w).

Definition io_bind {A B} (m : io A) (f : A -> io B) : io B :=
  fun w =>
    match m w with
    | (Ok a, w') => f a w'
    | (Raise e, w') => (Raise e, w')
    end.

Notation "x <~ m ;; k" := (io_bind m (fun x => k))
  (at level 61, m at next level, right associativity).
Notation "m ;;; k" := (io_bind m (fun _ => k))
  (at level 61, right associativity).

Definition lift {A} (r : result A) : io A := fun w => (r, w).

Definition print (m : message) : io unit :=
  fun w => (Ok tt, {| pdf_folder := pdf_folder w;
                      directories := directories w;
                      workbooks := workbooks w;
                      stdout := stdout w ++ [m];
                      mkdir_error := mkdir_error w;
                      write_error := write_error w |}).

(** ** The text provider *)

(** The parser object: [client] is [None] without GCP configuration;
    otherwise it stands for the whole [try] block of
    [extract_text_from_pdf] (read the file, call Document AI), giving
    [document.text] or [None] when anything in the block raises. *)
Record PDFParser : Type := {
  client : option (text -> option text) }.

Definition SLASH : char := 0x2F.

Fixpoint until_slash (s : text) : text :=
  match s with
  | [] => []
  | c :: s' => if c =? SLASH then [] else c :: until_slash s'
  end.

(** [os.path.basename] (POSIX): what follows the last slash. *)
Definition basename (path : text) : text := rev (until_slash (rev path)).

(** [os.path.join(a, b)] (POSIX). *)
Definition os_path_join (a b : text) : text :=
  if startswith [SLASH] b then b
  else if text_eqb a [] || endswith [SLASH] a then a ++ b
  else a ++ [SLASH] ++ b.

Section Batch.
(** [str.title], which the parser applies to the mock name only. *)
Variable title : text -> text.

Definition indent : text := str "        ".

Definition _mock_pdf_text (pdf_path : text) : text :=
  let filename := basename pdf_path in
  let constituency_name :=
    title (replace (str "_") (str " ") (replace (str ".pdf") [] filename)) in
  [NL]
  ++ indent ++ str "Electoral Results Report" ++ [NL]
  ++ indent ++ [NL]
  ++ indent ++ str "Constituency Name: " ++ constituency_name ++ [NL]
  ++ indent ++ [NL]
  ++ indent ++ str "Election Summary:" ++ [NL]
  ++ indent ++ str "Total number of electors: 45,678" ++ [NL]
  ++ indent ++ str "Total number of valid votes polled: 38,234" ++ [NL]
  ++ indent ++ str "Total number of votes for 'None of the Above': 1,234" ++ [NL]
  ++ indent ++ [NL]
  ++ indent ++ str "Additional details..." ++ [NL]
  ++ indent.

Definition extract_text_from_pdf (self : PDFParser) (pdf_path : text)
  : io text :=
  match client self with
  | None =>
      print (MockProcessing pdf_path) ;;;
      ret (_mock_pdf_text pdf_path)
  | Some process_document =>
      match process_document pdf_path with
      | Some document_text => ret document_text
      | None => print (ErrorProcessing pdf_path) ;;; ret []
      end
  end.

(** ** [process_all_pdfs] *)

Variable cfg : config.

(** [f.lower().endswith('.pdf')] *)
Definition is_pdf (f : text) : bool := endswith (str ".pdf") (lower f).

(** The loop over [enumerate(pdf_files, 1)]; [n] is [len(pdf_files)]. *)
Fixpoint process_loop (self : PDFParser) (n i : nat) (pdf_files : list text)
         (all_data : list dict) : io (list dict) :=
  match pdf_files with
  | [] => ret all_data
  | pdf_file :: rest =>
      print (Processing i n pdf_file) ;;;
      let pdf_path := os_path_join (PDF_FOLDER cfg) pdf_file in
      txt <~ extract_text_from_pdf self pdf_path ;;
      match txt with
      | _ :: _ =>
          data <~ lift (extract_data_from_text txt pdf_file) ;;
          process_loop self n (S i) rest (all_data ++ [data])
      | [] =>
          print (FailedToExtract pdf_file) ;;;
          process_loop self n (S i) rest all_data
      end
  end.

Definition process_all_pdfs (self : PDFParser) : io (list dict) :=
  fun w =>
    match pdf_folder w with
    | Missing => (print (FolderNotFound (PDF_FOLDER cfg)) ;;; ret []) w
    | PlainFile => raise NotADirectoryError w
    | Directory entries =>
        let pdf_files := filter is_pdf entries in
        match pdf_files with
        | [] => (print (NoPdfFilesFound (PDF_FOLDER cfg)) ;;; ret []) w
        | _ :: _ =>
            (print (FoundPdfFiles (List.length pdf_files)) ;;;
             process_loop self (List.length pdf_files) 1 pdf_files []) w
        end
    end.

(** ** [save_to_excel] *)

(** The column labels [pd.DataFrame] gives a list of dicts: the keys in
    the order in which they first appear. *)
Fixpoint first_seen (seen ks : list string) : list string :=
  match ks with
  | [] => []
  | k :: ks' =>
      if existsb (String.eqb k) seen then first_seen seen ks'
      else k :: first_seen (k :: seen) ks'
  end.

Definition pd_DataFrame (data : list dict) : DataFrame :=
  let cols := first_seen [] (flat_map keys data) in
  {| columns := cols;
     rows := map (fun d => map (fun c => dict_get c d) cols) data |}.

(** [df.columns = labels]: positional, and an error when the number of
    labels differs from the number of columns. *)
Definition set_columns (labels : list string) (df : DataFrame)
  : result DataFrame :=
  if Nat.eqb (List.length labels) (List.length (columns df))
  then Ok {| columns := labels; rows := rows df |}
  else Raise ValueError.

Definition headers : list string :=
  ["Filename"; "Constituency Name"; "Total Electors";
   "Valid Votes Polled"; "NOTA Votes"]%string.

(** [os.makedirs(path, exist_ok=True)]: the empty path raises
    FileNotFoundError; a directory that is there is left alone; otherwise
    the directory is made, unless the file system refuses. *)
Definition makedirs (path : text) : io unit :=
  fun w =>
    match path with
    | [] => (Raise FileNotFoundError, w)
    | _ :: _ =>
        if existsb (text_eqb path) (directories w) then (Ok tt, w)
        else match mkdir_error w path with
             | Some e => (Raise e, w)
             | None =>
                 (Ok tt, {| pdf_folder := pdf_folder w;
                            directories := path :: directories w;
                            workbooks := workbooks w;
                            stdout := stdout w;
                            mkdir_error := mkdir_error w;
                            write_error := write_error w |})
             end
    end.

(** [df.to_excel(path, index=False)]: header row and rows, unless the
    writer raises; then no workbook is recorded. *)
Definition to_excel (path : text) (df : DataFrame) : io unit :=
  fun w =>
    match write_error w path df with
    | Some e => (Raise e, w)
    | None =>
        (Ok tt, {| pdf_folder := pdf_folder w;
                   directories := directories w;
                   workbooks := (path, df) :: workbooks w;
                   stdout := stdout w;
                   mkdir_error := mkdir_error w;
                   write_error := write_error w |})
    end.

Definition save_to_excel (data : list dict) : io unit :=
  match data with
  | [] => print NoDataToSave
  | _ :: _ =>
      makedirs (OUTPUT_FOLDER cfg) ;;;
      df <~ lift (set_columns headers (pd_DataFrame data)) ;;
      let output_path := os_path_join (OUTPUT_FOLDER cfg) (OUTPUT_FILE cfg) in
      to_excel output_path df ;;;
      print (DataSavedTo output_path) ;;;
      print (TotalRecords (List.length data))
  end.
End Batch.

(** ** Vocabulary of the specification *)

Inductive field : Type := Constituency | Electors | ValidVotes | Nota.

Definition key_of (f : field) : string :=
  match f with
  | Constituency => "constituency_name"
  | Electors => "total_electors"
  | ValidVotes => "valid_votes_polled"
  | Nota => "nota_votes"
  end.

Definition rules_of (f : field) : list regex :=
  match f with
  | Constituency => constituency_patterns
  | Electors => elector_patterns
  | ValidVotes => valid_votes_patterns
  | Nota => nota_patterns
  end.

Definition is_numeric (f : field) : bool :=
  match f with
  | Constituency => false
  | _ => true
  end.

(** What group 1 of the leftmost match of rule [p] captures in [t]. *)
Definition captured (p : regex) (t : text) : option text :=
  match re_search p t with
  | Some (Some g) => Some g
  | _ => None
  end.

(** The value rule [p] of field [f] yields on the cleaned text [t]: the
    trimmed name when it passes validation, the digit span without its
    commas; [None] when the rule does not match or its match is rejected. *)
Definition rule_value (f : field) (p : regex) (t : text) : option text :=
  match captured p t with
  | Some g =>
      match f with
      | Constituency => if name_ok (strip g) then Some (strip g) else None
      | _ => Some (replace [COMMA] [] g)
      end
  | None => None
  end.

Definition ascii_fold (c : char) : char :=
  if is_upper_ascii c then c + 32 else c.

(** [name] begins with the lowercase ASCII word [kw], letter case ignored. *)
Definition begins_ci (kw name : text) : bool :=
  startswith kw (map ascii_fold name).

Definition rejected (name : text) : Prop :=
  (List.length name <= 3)%nat
  \/ begins_ci (str "total") name = true
  \/ begins_ci (str "number") name = true
  \/ begins_ci (str "election") name = true.

Definition is_digit (c : char) : bool := (0x30 <=? c) && (c <=? 0x39).

Definition is_digit_or_comma (c : char) : bool := is_digit c || (c =? COMMA).

Definition not_comma (c : char) : bool := negb (c =? COMMA).

(** [f] ends in [.pdf], letter case ignored. *)
Definition has_pdf_extension (f : text) : Prop :=
  exists stem ext, f = stem ++ ext /\ map ascii_fold ext = str ".pdf".

(** Splitting at every whitespace character, and the non-empty pieces. *)
Fixpoint chunks (s : text) : list text :=
  match s with
  | [] => [[]]
  | c :: s' =>
      if is_space c then [] :: chunks s'
      else match chunks s' with
           | w :: rest => (c :: w) :: rest
           | [] => [[c]]
           end
  end.

Definition nonempty (w : text) : bool :=
  match w with
  | [] => false
  | _ :: _ => true
  end.

Definition words (s : text) : list text := filter nonempty (chunks s).

(** The words joined by single spaces. *)
Fixpoint unwords (l : list text) : text :=
  match l with
  | [] => []
  | [w] => w
  | w :: l' => w ++ SPACE :: unwords l'
  end.

(** *** What a pattern matches, stated without the search order *)

Definition within (hi : option nat) (n : nat) : Prop :=
  match hi with
  | Some h => (n <= h)%nat
  | None => True
  end.

(** [ci_word kw u]: the literal [kw] matches [u] under IGNORECASE. *)
Definition ci_word (kw u : text) : Prop :=
  Forall2 (fun k x => lit_ci k x = true) kw u.

Definition all_in (cs : charset) (w : text) : Prop :=
  Forall (fun x => set_ci cs x = true) w.

(** [lang r w g g']: pattern [r] can match exactly [w], taking group 1 from
    [g] to [g']. *)
Inductive lang : regex -> text -> capture -> capture -> Prop :=
| L_eps g : lang Eps [] g g
| L_str kw u g : ci_word kw u -> lang (Str kw) u g g
| L_set cs x g : set_ci cs x = true -> lang (Set_ cs) [x] g g
| L_rep cs lo hi gr w g :
    all_in cs w -> (lo <= List.length w)%nat -> within hi (List.length w) ->
    lang (Rep cs lo hi gr) w g g
| L_opt_some r w g g' : lang r w g g' -> lang (Opt r) w g g'
| L_opt_none r g : lang (Opt r) [] g g
| L_seq r1 r2 w1 w2 g g1 g2 :
    lang r1 w1 g g1 -> lang r2 w2 g1 g2 -> lang (Seq r1 r2) (w1 ++ w2) g g2
| L_alt_l r1 r2 w g g' : lang r1 w g g' -> lang (Alt r1 r2) w g g'
| L_alt_r r1 r2 w g g' : lang r2 w g g' -> lang (Alt r1 r2) w g g'
| L_group r w g g' : lang r w g g' -> lang (Group r) w g (Some w).

(** Pattern [r] matches somewhere in [t]. *)
Definition found (r : regex) (t : text) : Prop :=
  exists pre w post g, t = pre ++ w ++ post /\ lang r w None g.

(** The word [kw] occurs in [t], case ignored as a search would. *)
Fixpoint mentions (kw t : text) : bool :=
  match match_str kw t with
  | Some _ => true
  | None =>
      match t with
      | [] => false
      | _ :: t' => mentions kw t'
      end
  end.

(** The words of which every pattern contains at least one. *)
Definition label_words : list text :=
  [str "constituency"; str "name"; str "electors"; str "registered";
   str "votes"; str "above"; str "nota"].

Definition no_labels (t : text) : bool :=
  forallb (fun kw => negb (mentions kw t)) label_words.

(** A label, a value of letters and spaces, then [total] or [election]. *)
Definition label_value_terminator : regex :=
  cat [alt [lit "constituency"; lit "name"]; star colon_ws; plus alpha_ws;
       alt [lit "total"; lit "election"]].

(** The form of the third constituency rule: a name, then [constituency]. *)
Definition name_then_constituency : regex :=
  cat [Set_ upper; plus alpha_ws; plus ws; lit "constituency"].

(** Syntactic checks on patterns. *)

(** Every match of [r] sets group 1. *)
Fixpoint binds (r : regex) : bool :=
  match r with
  | Group _ => true
  | Seq r1 r2 => binds r1 || binds r2
  | Alt r1 r2 => binds r1 && binds r2
  | _ => false
  end.

(** Every match of [r] contains one of the literal words [kws]. *)
Fixpoint requires (kws : list text) (r : regex) : bool :=
  match r with
  | Str w => existsb (text_eqb w) kws
  | Seq r1 r2 => requires kws r1 || requires kws r2
  | Alt r1 r2 => requires kws r1 && requires kws r2
  | Group r1 => requires kws r1
  | _ => false
  end.

(** [r] ends with group 1 around a repeat of the set [cs]. *)
Fixpoint ends_with_group_of (cs : charset) (r : regex) : Prop :=
  match r with
  | Seq _ r2 => ends_with_group_of cs r2
  | Group (Rep cs' _ _ _) => cs' = cs
  | _ => False
  end.

(** The record [extract_data_from_text] builds from five values. *)
Definition record_of (filename name electors valid nota : text) : dict :=
  [("filename"%string, filename);
   ("constituency_name"%string, name);
   ("total_electors"%string, electors);
   ("valid_votes_polled"%string, valid);
   ("nota_votes"%string, nota)].

(** ** Auxiliary definitions of the proofs and the scenarios *)

Definition is_lower_ascii (k : char) : bool := (0x61 <=? k) && (k <=? 0x7A).

Definition all_space (s : text) : bool := forallb is_space s.

(** What follows the first chunk once the text is collapsed. *)
Definition tail_text (rest : list text) : text :=
  match filter nonempty rest with
  | [] => []
  | l => SPACE :: unwords l
  end.

Definition no_space (u : text) : Prop := Forall (fun x => is_space x = false) u.

Definition plain_char (k : char) : bool :=
  (k <=? 0x7F) && negb (is_upper_ascii k) && negb (k =? 0x6B).

(** Words for which a prefix test on lowered text is a prefix test letter
    by letter: ASCII without capitals, without [k] (the lowercase of the
    Kelvin sign) and without a final [i] (the first half of the lowercase of
    U+0130). *)
Fixpoint plain (kw : text) : bool :=
  match kw with
  | [] => true
  | k :: kw' =>
      plain_char k && (negb (k =? 0x69) || nonempty kw') && plain kw'
  end.

(** The value of the first rule, in list order, that yields one. *)
Fixpoint first_value (f : field) (ps : list regex) (t : text) : option text :=
  match ps with
  | [] => None
  | p :: ps' =>
      match rule_value f p t with
      | Some v => Some v
      | None => first_value f ps' t
      end
  end.

Definition field_value (f : field) (t : text) : text :=
  match first_value f (rules_of f) t with
  | Some v => v
  | None => []
  end.

Definition all_rules : list regex :=
  constituency_patterns ++ elector_patterns ++ valid_votes_patterns
  ++ nota_patterns.

Definition record_keys : list string :=
  ["filename"; "constituency_name"; "total_electors"; "valid_votes_polled";
   "nota_votes"]%string.

Definition scenario_text : text :=
  str "Constituency Name: Example East" ++ [NL]
  ++ str "Total number of electors: 45,678" ++ [NL]
  ++ str "Total number of valid votes polled: 38,234" ++ [NL]
  ++ str "Total number of votes for 'None of the Above': 1,234".

Definition two_rules_text : text := str "Electors: 5 Total electors: 7".

Definition rejected_then_accepted_text : text :=
  str "Constituency: Total votes Election Name: Abcde Total".

Definition all_rejected_text : text := str "Constituency: Total Election".

Definition grouped_number_text : text := str "Total electors: 45,678".

(** The text the provider yields for a file of the folder: the empty text
    when the fetch failed. *)
Definition provided_text (title : text -> text) (cfg : config)
           (self : PDFParser) (pdf_file : text) : text :=
  let pdf_path := os_path_join (PDF_FOLDER cfg) pdf_file in
  match client self with
  | None => _mock_pdf_text title pdf_path
  | Some process_document =>
      match process_document pdf_path with
      | Some document_text => document_text
      | None => []
      end
  end.

Definition has_text (title : text -> text) (cfg : config) (self : PDFParser)
           (pdf_file : text) : bool :=
  nonempty (provided_text title cfg self pdf_file).

(** The files of a listing that yield a record. *)
Definition kept (title : text -> text) (cfg : config) (self : PDFParser)
           (files : list text) : list text :=
  filter (has_text title cfg self) files.

(** Two worlds that differ in what was printed only. *)
Definition same_files (w w' : world) : Prop :=
  pdf_folder w' = pdf_folder w /\ directories w' = directories w
  /\ workbooks w' = workbooks w.

Definition default_config : config :=
  {| PDF_FOLDER := str "data";
     OUTPUT_FOLDER := str "output";
     OUTPUT_FILE := str "extracted_data.xlsx" |}.

Definition mock_parser : PDFParser := {| client := None |}.

Definition four_entries : list text :=
  [str "a.pdf"; str "notes.txt"; str "B.PDF"; str "c.Pdf"].

Definition empty_world (at_pdf_folder : folder) : world :=
  {| pdf_folder := at_pdf_folder; directories := []; workbooks := [];
     stdout := [];
     mkdir_error := fun _ => None; write_error := fun _ _ => None |}.

Definition label_only_text : text := str "Constituency Name: Example East".

(** [kw] is one of the words of [t], letter case ignored. *)
Definition has_word (kw t : text) : bool :=
  existsb (fun w => text_eqb (map ascii_fold w) kw) (words t).

(** Two texts in which the letters of a terminator begin, or lie inside, a
    longer word. *)
Definition totality_text : text := str "Constituency: Abcd Totality".

Definition selection_text : text :=
  str "Constituency Name: Abcd Selection committee".

(** What running [m] in [w] raises, if anything. *)
Definition raised {A} (m : io A) (w : world) : option exn :=
  match fst (m w) with
  | Raise e => Some e
  | Ok _ => None
  end.

(** Two worlds with the same file-system and writer behaviour. *)
Definition same_environment (w w' : world) : Prop :=
  mkdir_error w' = mkdir_error w /\ write_error w' = write_error w.

(** The table the exporter hands to the writer for records that share
    their keys: the fixed headers over the values in insertion order. *)
Definition table_of (data : list dict) : DataFrame :=
  {| columns := headers;
     rows := map (fun d => map Some (values d)) data |}.

(** A writer that refuses control characters as openpyxl does: U+0000 to
    U+0008, U+000B, U+000C and U+000E to U+001F among the first 32767
    characters of a cell. *)
Definition illegal_character (c : char) : bool :=
  (c <=? 0x08) || ((0x0B <=? c) && (c <=? 0x0C)) || ((0x0E <=? c) && (c <=? 0x1F)).

(** [value[:n]] *)
Fixpoint prefix (n : N) (t : text) : text :=
  match t with
  | [] => []
  | c :: t' => if n =? 0 then [] else c :: prefix (n - 1) t'
  end.

Definition illegal_cell (c : cell) : bool :=
  match c with
  | Some t => existsb illegal_character (prefix 32767 t)
  | None => false
  end.

Definition openpyxl_error (path : text) (df : DataFrame) : option exn :=
  if existsb (existsb illegal_cell) (rows df)
  then Some IllegalCharacterError else None.

(** A file system in which one path is taken by a plain file. *)
Definition taken_path (taken : text) (path : text) : option exn :=
  if text_eqb path taken then Some FileExistsError else None.

Definition strict_world (at_pdf_folder : folder) : world :=
  {| pdf_folder := at_pdf_folder; directories := []; workbooks := [];
     stdout := [];
     mkdir_error := taken_path (str "output"); write_error := openpyxl_error |}.

(** The record of the scenario text under a file name. *)
Definition scenario_record (filename : text) : dict :=
  record_of filename (str "Example East") (str "45678") (str "38234")
    (str "1234").

(** A file name with the control character U+0001. *)
Definition control_name : text := str "a" ++ [0x01] ++ str ".pdf".

Definition no_folder_config : config :=
  {| PDF_FOLDER := [];
     OUTPUT_FOLDER := [];
     OUTPUT_FILE := str "extracted_data.xlsx" |}.

Definition no_output_config : config :=
  {| PDF_FOLDER := str "data";
     OUTPUT_FOLDER := [];
     OUTPUT_FILE := str "extracted_data.xlsx" |}.

Definition other_output_config : config :=
  {| PDF_FOLDER := str "data";
     OUTPUT_FOLDER := str "out";
     OUTPUT_FILE := str "extracted_data.xlsx" |}.

(** ** Definitions for the further properties *)

(** The label words of one field: every rule of the field contains one. *)
Definition field_words (f : field) : list text :=
  match f with
  | Constituency => [str "constituency"; str "name"]
  | Electors => [str "electors"; str "registered"]
  | ValidVotes => [str "votes"]
  | Nota => [str "above"; str "nota"]
  end.

Definition is_comma (c : char) : bool := c =? COMMA.

(** A list without its element at position [n]. *)
Fixpoint drop_nth {A} (n : nat) (l : list A) : list A :=
  match n, l with
  | _, [] => []
  | O, _ :: l' => l'
  | S n', x :: l' => x :: drop_nth n' l'
  end.

(** The characters [[A-Za-z]] matches under IGNORECASE: the ASCII letters,
    U+0130, U+0131, U+017F and U+212A. *)
Definition is_name_letter (c : char) : bool :=
  ((0x41 <=? c) && (c <=? 0x5A)) || ((0x61 <=? c) && (c <=? 0x7A))
  || (c =? 0x130) || (c =? 0x131) || (c =? 0x17F) || (c =? 0x212A).

Definition is_name_char (c : char) : bool := is_name_letter c || (c =? SPACE).

(** No [Group] occurs in the pattern. *)
Fixpoint groupless (r : regex) : bool :=
  match r with
  | Group _ => false
  | Opt r1 => groupless r1
  | Seq r1 r2 | Alt r1 r2 => groupless r1 && groupless r2
  | _ => true
  end.

Definition comma_only_text : text := str "Electors: , Total registered: 5".

(** The patterns inside the groups of [r]. *)
Fixpoint group_bodies (r : regex) : list regex :=
  match r with
  | Group r1 => r1 :: group_bodies r1
  | Opt r1 => group_bodies r1
  | Seq r1 r2 | Alt r1 r2 => group_bodies r1 ++ group_bodies r2
  | _ => []
  end.

(** A change of letter case: a map on characters that neither lowering
    sees. *)
Definition recasing (phi : char -> char) : Prop :=
  (forall x, sre_lower (phi x) = sre_lower x)
  /\ (forall x, lower_char (phi x) = lower_char x).

Definition ascii_upper (c : char) : char :=
  if is_lower_ascii c then c - 32 else c.

(** A capture with its letters recased. *)
Definition recased (phi : char -> char) (g : capture) : capture :=
  option_map (map phi) g.

(** The files a log reports as failed, and the attempts it announces. *)
Definition failures (log : list message) : list text :=
  flat_map (fun m => match m with FailedToExtract f => [f] | _ => [] end) log.

Definition attempts (log : list message) : list (nat * nat * text) :=
  flat_map (fun m => match m with Processing i n f => [(i, n, f)] | _ => [] end)
    log.

(** [enumerate(files, i)] with the total [n] beside each index. *)
Fixpoint numbered (n i : nat) (files : list text) : list (nat * nat * text) :=
  match files with
  | [] => []
  | f :: rest => (i, n, f) :: numbered n (S i) rest
  end.

(** The GCP settings of config.py: [os.getenv] gives [None] for an unset
    variable. *)
Record gcp_settings : Type := {
  PROJECT_ID : option text;
  LOCATION : text;
  PROCESSOR_ID : option text }.

(** Truth value of a setting: unset and empty are false. *)
Definition truthy (o : option text) : bool :=
  match o with
  | Some (_ :: _) => true
  | _ => false
  end.

(** The lines [__init__] prints. *)
Inductive init_message : Type :=
| MissingConfiguration
| FallingBackToMock
| ClientInitialized
| CouldNotInitialize.

(** [PDFParser.__init__].  [connect] stands for the [try] block, which
    builds the Document AI client and the processor name: [None] when it
    raises. *)
Definition PDFParser_init (gcp : gcp_settings)
           (connect : gcp_settings -> option (text -> option text))
  : PDFParser * list init_message :=
  if negb (truthy (PROJECT_ID gcp) && truthy (PROCESSOR_ID gcp))
  then ({| client := None |}, [MissingConfiguration; FallingBackToMock])
  else match connect gcp with
       | Some process_document =>
           ({| client := Some process_document |}, [ClientInitialized])
       | None => ({| client := None |}, [CouldNotInitialize; FallingBackToMock])
       end.

(** A client whose call fails for one path and returns a short text for
    every other. *)
Definition flaky_parser : PDFParser :=
  {| client := Some (fun pdf_path =>
                       if text_eqb pdf_path (str "data/B.PDF") then None
                       else Some (str "Electors: 5")) |}.

Definition unset_settings : gcp_settings :=
  {| PROJECT_ID := None; LOCATION := str "us"; PROCESSOR_ID := Some (str "p1") |}.

(** A record whose keys were inserted in another order, and one that lacks
    a key. *)
Definition reordered_record : dict :=
  [("constituency_name"%string, str "Example East");
   ("filename"%string, str "a.pdf");
   ("total_electors"%string, str "45678");
   ("valid_votes_polled"%string, str "38234");
   ("nota_votes"%string, str "1234")].

Definition short_record : dict :=
  [("filename"%string, str "a.pdf");
   ("constituency_name"%string, str "Example East")].

(** main.py.  The lines [main] itself prints, kept apart from the lines of
    the parser, which go to [stdout] of the world. *)
Inductive main_line : Type :=
| Banner
| LookingForPdfs (pdf_folder : text)
| OutputWillBeSaved (output_folder output_file : text)
| BlankLine
| InitLine (m : init_message)
| ClientInitializedLine
| ExtractionSummary
| FilesProcessed (n : nat)
| SuccessfulExtractions (n : nat)
| SampleData
| SampleField (key : string) (value : text)
| NoDataExtracted
| ErrorDuringProcessing.

Inductive main_result : Type :=
| Returned
| SysExit1
| Uncaught (e : exn).   (* raised outside the [try] blocks *)

(** [os.makedirs(config.PDF_FOLDER, exist_ok=True)] of main.py: the empty
    path raises FileNotFoundError and a plain file in the place of the
    folder FileExistsError; a missing folder is made, empty, unless the file
    system refuses; a folder that is there is left alone. *)
Definition ensure_pdf_folder (cfg : config) : io unit :=
  fun w =>
    match PDF_FOLDER cfg with
    | [] => (Raise FileNotFoundError, w)
    | _ :: _ =>
        match pdf_folder w with
        | Directory _ => (Ok tt, w)
        | PlainFile => (Raise FileExistsError, w)
        | Missing =>
            match mkdir_error w (PDF_FOLDER cfg) with
            | Some e => (Raise e, w)
            | None =>
                (Ok tt, {| pdf_folder := Directory [];
                           directories := directories w;
                           workbooks := workbooks w;
                           stdout := stdout w;
                           mkdir_error := mkdir_error w;
                           write_error := write_error w |})
            end
        end
    end.

(** [any(data[key] for key in data.keys() if key != 'filename')] *)
Definition successful (data : dict) : bool :=
  existsb (fun kv => negb (String.eqb (fst kv) "filename") && nonempty (snd kv))
    data.

(** [main()].  The call of [os.makedirs] stands outside the [try] blocks:
    what it raises ends the run with a traceback.  The [except] branch
    around [PDFParser()] is left out: [__init__] catches what its own body
    raises. *)
Definition main (title : text -> text) (cfg : config) (gcp : gcp_settings)
           (connect : gcp_settings -> option (text -> option text))
           (w : world) : main_result * world * list main_line :=
  let opening := [Banner; LookingForPdfs (PDF_FOLDER cfg);
                  OutputWillBeSaved (OUTPUT_FOLDER cfg) (OUTPUT_FILE cfg);
                  BlankLine] in
  match ensure_pdf_folder cfg w with
  | (Raise e, w1) => (Uncaught e, w1, opening)
  | (Ok _, w1) =>
      let (parser, init_lines) := PDFParser_init gcp connect in
      let lines := opening ++ map InitLine init_lines ++ [ClientInitializedLine] in
      match process_all_pdfs title cfg parser w1 with
      | (Ok extracted_data, w2) =>
          match extracted_data with
          | sample :: _ =>
              match save_to_excel cfg extracted_data w2 with
              | (Ok _, w3) =>
                  (Returned, w3,
                   lines
                   ++ [ExtractionSummary;
                       FilesProcessed (List.length extracted_data);
                       SuccessfulExtractions
                         (List.length (filter successful extracted_data));
                       SampleData]
                   ++ map (fun kv => SampleField (fst kv) (snd kv)) sample)
              | (Raise _, w3) => (SysExit1, w3, lines ++ [ErrorDuringProcessing])
              end
          | [] => (Returned, w2, lines ++ [NoDataExtracted])
          end
      | (Raise _, w2) => (SysExit1, w2, lines ++ [ErrorDuringProcessing])
      end
  end.

(** The entries of a folder that is there. *)
Definition listing (f : folder) : list text :=
  match f with
  | Directory entries => entries
  | _ => []
  end.

Definition no_label_text : text := str "Page 3 of 12 -- 4,500 copies".

(** * Running the model *)

Example clean_example :
  clean (str "  Total   electors:" ++ [NL; 0x09] ++ str " 45,678 ")
  = str "Total electors: 45,678".
Proof. reflexivity. Qed.

Example lazy_group_example :
  captured (nth 0 constituency_patterns Eps)
    (str "Constituency Name: Example East Total votes")
  = Some (str "Example East ").
Proof. vm_compute. reflexivity. Qed.

Example optional_group_example :
  captured (nth 0 elector_patterns Eps) (str "TOTAL NUMBER OF ELECTORS 1,2,3 x")
  = Some (str "1,2,3").
Proof. vm_compute. reflexivity. Qed.

(** Under IGNORECASE the literal [s] also matches the long s, U+017F. *)
Example long_s_example :
  captured (nth 1 elector_patterns Eps) (str "elector" ++ [0x17F] ++ str ": 12")
  = Some (str "12").
Proof. vm_compute. reflexivity. Qed.

Example lower_example : lower (str "Ab" ++ [0x130]) = str "ab" ++ [0x69; 0x307].
Proof. reflexivity. Qed.

Example replace_example :
  replace (str ".pdf") [] (str "north_ward.pdf.PDF") = str "north_ward.PDF".
Proof. reflexivity. Qed.

Example mock_example :
  extract_data_from_text
    (_mock_pdf_text (fun s => s) (str "data/north_ward.pdf")) (str "north_ward.pdf")
  = Ok (record_of (str "north_ward.pdf") (str "north ward") (str "45678")
          (str "38234") (str "1234")).
Proof. vm_compute. reflexivity. Qed.

(** * Properties of the matcher *)

Section MatcherFacts.
Context {R : Type}.
Implicit Types (k : text -> option R) (s w : text).

Lemma orelse_some (a b : option R) x :
  orelse a b = Some x -> a = Some x \/ (a = None /\ b = Some x).
Proof. destruct a; simpl; intros H; [left | right]; auto. Qed.

Lemma orelse_none (a b : option R) :
  orelse a b = None -> a = None /\ b = None.
Proof. destruct a; simpl; intros H; [discriminate | auto]. Qed.

Lemma stop_at_some lo s k x : stop_at lo s k = Some x -> lo = O /\ k s = Some x.
Proof. destruct lo; simpl; intros H; [auto | discriminate]. Qed.

Lemma within_step hi n :
  more hi = true -> within (dec hi) n -> within hi (S n).
Proof. destruct hi as [[|h]|]; simpl; intros; try discriminate; lia. Qed.

Lemma within_more hi n : within hi (S n) -> more hi = true.
Proof. destruct hi as [[|h]|]; simpl; intros; auto; lia. Qed.

Lemma within_dec hi n : within hi (S n) -> within (dec hi) n.
Proof. destruct hi as [[|h]|]; simpl; intros; auto; lia. Qed.

Lemma rep_greedy_sound cs s : forall lo hi k x,
  rep_greedy cs lo hi s k = Some x ->
  exists w s', s = w ++ s' /\ all_in cs w /\ (lo <= List.length w)%nat
               /\ within hi (List.length w) /\ k s' = Some x.
Proof.
  assert (Hstop : forall lo hi s k x, stop_at lo s k = Some x ->
    exists w s', s = w ++ s' /\ all_in cs w /\ (lo <= List.length w)%nat
                 /\ within hi (List.length w) /\ k s' = Some x).
  { intros lo hi s0 k x H. apply stop_at_some in H as [-> H].
    exists [], s0. repeat split; auto. - constructor.
    - destruct hi; simpl; lia. }
  induction s as [|c s IH]; intros lo hi k x H; simpl in H.
  - eauto.
  - destruct (more hi && set_ci cs c) eqn:E; [|eauto].
    apply andb_true_iff in E as [Hm Hc].
    apply orelse_some in H as [H | [_ H]]; [|eauto].
    apply IH in H as (w & s' & -> & Hw & Hlo & Hhi & Hk).
    exists (c :: w), s'. repeat split; auto.
    + constructor; auto.
    + simpl; lia.
    + simpl. apply within_step; auto.
Qed.

Lemma rep_greedy_complete cs w : forall s' lo hi k,
  rep_greedy cs lo hi (w ++ s') k = None ->
  all_in cs w -> (lo <= List.length w)%nat -> within hi (List.length w) ->
  k s' = None.
Proof.
  induction w as [|c w IH]; intros s' lo hi k H Hw Hlo Hhi; simpl in *.
  - assert (lo = O) by lia; subst.
    destruct s' as [|c s']; simpl in H; auto.
    destruct (more hi && set_ci cs c); auto.
    apply orelse_none in H as [_ H]; auto.
  - inversion Hw; subst.
    rewrite (within_more _ _ Hhi) in H. rewrite H2 in H. simpl in H.
    apply orelse_none in H as [H _].
    apply IH in H; auto. + lia. + apply within_dec; auto.
Qed.

Lemma rep_lazy_sound cs s : forall lo hi k x,
  rep_lazy cs lo hi s k = Some x ->
  exists w s', s = w ++ s' /\ all_in cs w /\ (lo <= List.length w)%nat
               /\ within hi (List.length w) /\ k s' = Some x.
Proof.
  induction s as [|c s IH]; intros lo hi k x H; simpl in H;
    apply orelse_some in H as [H | [_ H]]; try discriminate.
  1,2: apply stop_at_some in H as [-> H];
       eexists [], _; repeat split; eauto; try constructor;
       destruct hi; simpl; lia.
  destruct (more hi && set_ci cs c) eqn:E; [|discriminate].
  apply andb_true_iff in E as [Hm Hc].
  apply IH in H as (w & s' & -> & Hw & Hlo & Hhi & Hk).
  exists (c :: w), s'. repeat split; auto.
  + constructor; auto.
  + simpl; lia.
  + simpl. apply within_step; auto.
Qed.

Lemma rep_lazy_complete cs w : forall s' lo hi k,
  rep_lazy cs lo hi (w ++ s') k = None ->
  all_in cs w -> (lo <= List.length w)%nat -> within hi (List.length w) ->
  k s' = None.
Proof.
  induction w as [|c w IH]; intros s' lo hi k H Hw Hlo Hhi; simpl in *.
  - assert (lo = O) by lia; subst.
    destruct s' as [|c s']; simpl in H;
      apply orelse_none in H as [H _]; auto.
  - inversion Hw; subst.
    apply orelse_none in H as [_ H].
    rewrite (within_more _ _ Hhi) in H. rewrite H2 in H. simpl in H.
    apply IH in H; auto. + lia. + apply within_dec; auto.
Qed.
End MatcherFacts.

Lemma match_str_sound kw : forall s s',
  match_str kw s = Some s' -> exists u, s = u ++ s' /\ ci_word kw u.
Proof.
  induction kw as [|c kw IH]; intros s s' H; simpl in H.
  - inversion H; subst. exists []. split; auto. constructor.
  - destruct s as [|x s]; [discriminate|].
    destruct (lit_ci c x) eqn:E; [|discriminate].
    apply IH in H as (u & -> & Hu). exists (x :: u). split; auto.
    constructor; auto.
Qed.

Lemma match_str_complete kw : forall u s',
  ci_word kw u -> match_str kw (u ++ s') = Some s'.
Proof.
  induction kw as [|c kw IH]; intros u s' H; inversion H; subst; simpl; auto.
  rewrite H2. apply IH; auto.
Qed.

Lemma firstn_consumed (w s' : text) :
  firstn (List.length (w ++ s') - List.length s') (w ++ s') = w.
Proof.
  rewrite length_app.
  replace (List.length w + List.length s' - List.length s')%nat
    with (List.length w + 0)%nat by lia.
  rewrite firstn_app_2. simpl. apply app_nil_r.
Qed.

Lemma exec_sound {R} r : forall s g (k : text -> capture -> option R) x,
  exec r s g k = Some x ->
  exists w s' g', s = w ++ s' /\ lang r w g g' /\ k s' g' = Some x.
Proof.
  induction r; intros s g k x H; simpl in H.
  - exists [], s, g. repeat split; auto. constructor.
  - destruct (match_str w s) as [s'|] eqn:E; [|discriminate].
    apply match_str_sound in E as (u & -> & Hu).
    exists u, s', g. repeat split; auto. constructor; auto.
  - destruct s as [|c s]; [discriminate|].
    destruct (set_ci cs c) eqn:E; [|discriminate].
    exists [c], s, g. repeat split; auto. constructor; auto.
  - destruct greedy;
      [apply rep_greedy_sound in H | apply rep_lazy_sound in H];
      destruct H as (w & s' & -> & Hw & Hlo & Hhi & Hk);
      exists w, s', g; repeat split; auto; constructor; auto.
  - apply orelse_some in H as [H | [_ H]].
    + apply IHr in H as (w & s' & g' & -> & Hl & Hk).
      exists w, s', g'. repeat split; auto. constructor; auto.
    + exists [], s, g. repeat split; auto. apply L_opt_none.
  - apply IHr1 in H as (w1 & s1 & g1 & -> & Hl1 & H).
    apply IHr2 in H as (w2 & s2 & g2 & -> & Hl2 & H).
    exists (w1 ++ w2), s2, g2. rewrite app_assoc. repeat split; auto.
    econstructor; eauto.
  - apply orelse_some in H as [H | [_ H]].
    + apply IHr1 in H as (w & s' & g' & -> & Hl & Hk).
      exists w, s', g'. repeat split; auto. apply L_alt_l; auto.
    + apply IHr2 in H as (w & s' & g' & -> & Hl & Hk).
      exists w, s', g'. repeat split; auto. apply L_alt_r; auto.
  - apply IHr in H as (w & s' & g' & -> & Hl & Hk).
    rewrite firstn_consumed in Hk.
    exists w, s', (Some w). repeat split; auto. econstructor; eauto.
Qed.

Lemma exec_complete {R} r w g g' : lang r w g g' ->
  forall s' (k : text -> capture -> option R),
  exec r (w ++ s') g k = None -> k s' g' = None.
Proof.
  induction 1; intros s' k E; simpl in E; auto.
  - rewrite (match_str_complete _ _ _ H) in E. auto.
  - rewrite H in E. auto.
  - destruct gr.
    + eapply (rep_greedy_complete cs w s' lo hi (fun s0 => k s0 g)); eauto.
    + eapply (rep_lazy_complete cs w s' lo hi (fun s0 => k s0 g)); eauto.
  - apply orelse_none in E as [E _]. eauto.
  - apply orelse_none in E as [_ E]. auto.
  - rewrite <- app_assoc in E. apply IHlang1 in E. apply IHlang2 in E. auto.
  - apply orelse_none in E as [E _]. eauto.
  - apply orelse_none in E as [_ E]. eauto.
  - apply IHlang in E. rewrite firstn_consumed in E. auto.
Qed.

Lemma re_match_sound r s g :
  re_match r s = Some g -> exists w s', s = w ++ s' /\ lang r w None g.
Proof.
  unfold re_match. intros H. apply exec_sound in H as (w & s' & g' & -> & Hl & Hk).
  inversion Hk; subst. eauto.
Qed.

Lemma re_match_complete r w s' g :
  lang r w None g -> re_match r (w ++ s') <> None.
Proof.
  unfold re_match. intros Hl E.
  eapply exec_complete in E; eauto. discriminate.
Qed.

Lemma re_search_sound r s : forall g,
  re_search r s = Some g ->
  exists pre w post, s = pre ++ w ++ post /\ lang r w None g.
Proof.
  induction s as [|c s IH]; intros g H; simpl in H.
  - destruct (re_match r []) eqn:E; [|discriminate]. inversion H; subst.
    apply re_match_sound in E as (w & s' & E & Hl). exists [], w, s'. auto.
  - destruct (re_match r (c :: s)) eqn:E.
    + inversion H; subst.
      apply re_match_sound in E as (w & s' & E & Hl). exists [], w, s'. auto.
    + apply IH in H as (pre & w & post & -> & Hl).
      exists (c :: pre), w, post. auto.
Qed.

Lemma re_search_complete r w g : lang r w None g ->
  forall pre post, re_search r (pre ++ w ++ post) <> None.
Proof.
  intros Hl pre post. induction pre as [|c pre IH]; simpl.
  - destruct (re_match r (w ++ post)) eqn:E.
    + destruct w, post; simpl in *; rewrite ?E; discriminate.
    + exfalso. eapply re_match_complete; eauto.
  - destruct (re_match r (c :: pre ++ w ++ post)); [discriminate | auto].
Qed.

Theorem re_search_found r t : re_search r t <> None <-> found r t.
Proof.
  split.
  - destruct (re_search r t) as [g|] eqn:E; [|congruence]. intros _.
    apply re_search_sound in E as (pre & w & post & -> & Hl).
    exists pre, w, post, g. auto.
  - intros (pre & w & post & g & -> & Hl). eapply re_search_complete; eauto.
Qed.

(** * Characters *)

Ltac no_if t :=
  lazymatch t with
  | context [if _ then _ else _] => fail
  | _ => idtac
  end.

Ltac split_tests :=
  repeat (match goal with
    | |- context [N.eqb ?a ?b] =>
        no_if a; no_if b; destruct (N.eqb_spec a b); try (exfalso; lia)
    | |- context [N.leb ?a ?b] =>
        no_if a; no_if b; destruct (N.leb_spec a b); try (exfalso; lia)
    end; cbn [andb orb negb existsb]).

Ltac tests :=
  repeat match goal with
    | H : _ = true |- _ => revert H
    | H : _ = false |- _ => revert H
    end;
  split_tests; intros;
  try discriminate; try reflexivity; try lia; try congruence.

Lemma lit_ci_lower k x :
  is_lower_ascii k = true -> lit_ci k x = true ->
  x = k \/ x + 32 = k \/ (k = 0x69 /\ (x = 0x130 \/ x = 0x131))
  \/ (k = 0x6B /\ x = 0x212A) \/ (k = 0x73 /\ x = 0x17F).
Proof.
  unfold is_lower_ascii, lit_ci, fixes, sre_lower, is_upper_ascii.
  intros Hk H. tests.
Qed.

Lemma lit_ci_not_space k x :
  is_lower_ascii k = true -> lit_ci k x = true -> is_space x = false.
Proof.
  intros Hk H. pose proof (lit_ci_lower _ _ Hk H) as C. clear H.
  unfold is_lower_ascii, is_space in *. tests.
Qed.

Lemma lit_ci_newline x : lit_ci NL x = true -> x = NL.
Proof. unfold lit_ci, fixes, sre_lower, is_upper_ascii, NL. intros H. tests. Qed.

Lemma sre_lower_space x : is_space (sre_lower x) = is_space x.
Proof.
  unfold sre_lower, is_upper_ascii.
  destruct (N.leb_spec 65 x), (N.leb_spec x 90); cbn [andb];
    [unfold is_space; tests | | |];
    (destruct (N.eqb_spec x 304); [subst; reflexivity|]);
    (destruct (N.eqb_spec x 8490); [subst; reflexivity|]); reflexivity.
Qed.

Lemma in_range_chars lo hi c :
  In c (range_chars lo hi) <-> lo <= c <= hi.
Proof.
  unfold range_chars. rewrite in_map_iff. split.
  - intros (i & <- & Hi). apply in_seq in Hi. lia.
  - intros H. exists (N.to_nat (c - lo)). split; [lia|].
    apply in_seq. lia.
Qed.

Lemma range_ci lo hi x :
  existsb (fun c => lit_ci c x) (range_chars lo hi) = true <->
  exists c, lo <= c <= hi /\ lit_ci c x = true.
Proof.
  rewrite existsb_exists. split; intros (c & H & E); exists c;
    (split; [apply in_range_chars; auto | auto]).
Qed.

Lemma digits_commas_spec x :
  set_ci digits_commas x = true -> is_digit_or_comma x = true.
Proof.
  unfold set_ci, digits_commas. cbn [existsb item_ci].
  rewrite !orb_true_iff, range_ci.
  change (ch "0") with 0x30. change (ch "9") with 0x39.
  unfold is_digit_or_comma, is_digit, COMMA.
  intros [(c & Hc & H) | [H | H]]; try discriminate;
    unfold lit_ci, fixes, sre_lower, is_upper_ascii in H; tests.
Qed.

(** * Trimming and collapsing whitespace *)

Lemma lstrip_app a b :
  lstrip (a ++ b) = if all_space a then lstrip b else lstrip a ++ b.
Proof.
  induction a as [|c a IH]; simpl; auto.
  destruct (is_space c); simpl; auto.
Qed.

Lemma all_space_rev s : all_space (rev s) = all_space s.
Proof.
  unfold all_space. induction s as [|c s IH]; simpl; auto.
  rewrite forallb_app, IH. simpl. rewrite andb_true_r. apply andb_comm.
Qed.

Lemma lstrip_all_space s : all_space s = true -> lstrip s = [].
Proof.
  induction s as [|c s IH]; simpl; auto.
  destruct (is_space c); simpl; auto. discriminate.
Qed.

(** [rstrip] read from the left. *)
Lemma rstrip_cons c s :
  rstrip (c :: s) = if all_space (c :: s) then [] else c :: rstrip s.
Proof.
  unfold rstrip. simpl rev. rewrite lstrip_app, all_space_rev.
  change (all_space (c :: s)) with (is_space c && all_space s).
  destruct (all_space s) eqn:E.
  - rewrite (lstrip_all_space (rev s)) by (rewrite all_space_rev; exact E).
    simpl. destruct (is_space c); reflexivity.
  - rewrite andb_false_r, rev_app_distr. reflexivity.
Qed.


Lemma chunks_cons s : exists w rest, chunks s = w :: rest.
Proof.
  destruct s as [|c s]; simpl; eauto.
  destruct (is_space c); eauto. destruct (chunks s); eauto.
Qed.

Lemma words_all_space s : all_space s = true -> words s = [].
Proof.
  unfold words. induction s as [|c s IH]; simpl; auto.
  destruct (is_space c); simpl; auto. discriminate.
Qed.

Lemma words_not_all_space s : all_space s = false -> words s <> [].
Proof.
  unfold words. induction s as [|c s IH]; simpl; [discriminate|].
  destruct (is_space c); simpl; auto.
  intros _. destruct (chunks s); simpl; discriminate.
Qed.

Lemma unwords_cons w l : unwords (w :: l) = w ++ match l with [] => [] | _ => SPACE :: unwords l end.
Proof. destruct l; simpl; auto. rewrite app_nil_r; auto. Qed.

Lemma sub_ws_rstrip s : forall b w rest,
  chunks s = w :: rest ->
  sub_ws b (rstrip s) =
    match w with
    | [] => if b then unwords (filter nonempty rest) else tail_text rest
    | _ :: _ => w ++ tail_text rest
    end.
Proof.
  induction s as [|c s IH]; intros b w rest E.
  - simpl in E. inversion E; subst. destruct b; reflexivity.
  - rewrite rstrip_cons. simpl in E. simpl all_space.
    destruct (chunks_cons s) as (w' & rest' & E').
    destruct (is_space c) eqn:Ec.
    + inversion E; subst; clear E. simpl andb.
      destruct (all_space s) eqn:Es.
      * apply words_all_space in Es. unfold words in Es.
        unfold tail_text. rewrite Es. destruct b; reflexivity.
      * apply words_not_all_space in Es. unfold words in Es.
        simpl sub_ws. rewrite Ec.
        rewrite (IH true w' rest' E').
        assert (U : unwords (filter nonempty (chunks s)) =
                    match w' with
                    | [] => unwords (filter nonempty rest')
                    | _ :: _ => w' ++ tail_text rest'
                    end).
        { rewrite E'. destruct w'; simpl; auto.
          unfold tail_text. destruct (filter nonempty rest') eqn:F; auto.
          rewrite app_nil_r; auto. }
        rewrite <- U. unfold tail_text.
        destruct (filter nonempty (chunks s)); [congruence|].
        destruct b; reflexivity.
    + simpl andb. rewrite E' in E. injection E as <- <-.
      simpl sub_ws. rewrite Ec. rewrite (IH false w' rest' E').
      destruct w', b; reflexivity.
Qed.

Lemma words_lstrip s : words (lstrip s) = words s.
Proof.
  unfold words. induction s as [|c s IH]; simpl; auto.
  destruct (is_space c) eqn:E; simpl; auto. rewrite E. reflexivity.
Qed.

Lemma lstrip_head s c s' : lstrip s = c :: s' -> is_space c = false.
Proof.
  induction s as [|x s IH]; simpl; [discriminate|].
  destruct (is_space x) eqn:E; auto. intros H; inversion H; subst; auto.
Qed.

Theorem clean_unwords txt : clean txt = unwords (words txt).
Proof.
  unfold clean, strip, re_sub_ws. rewrite <- (words_lstrip txt).
  destruct (chunks_cons (lstrip txt)) as (w & rest & E).
  rewrite (sub_ws_rstrip _ false w rest E).
  unfold words. rewrite E. destruct w as [|c w].
  - destruct (lstrip txt) as [|x s] eqn:L.
    + simpl in E. inversion E; subst. reflexivity.
    + pose proof (lstrip_head _ _ _ L) as Hx. simpl in E. rewrite Hx in E.
      destruct (chunks s); discriminate.
  - simpl filter. rewrite unwords_cons. unfold tail_text.
    destruct (filter nonempty rest); auto.
Qed.

Lemma rstrip_all_space s : all_space s = true -> rstrip s = [].
Proof.
  intros H. unfold rstrip. rewrite lstrip_all_space; auto.
  rewrite all_space_rev; auto.
Qed.

Lemma all_space_sub_ws s : forall b, all_space (sub_ws b s) = all_space s.
Proof.
  induction s as [|c s IH]; intros b; simpl; auto.
  destruct (is_space c) eqn:E; simpl.
  - destruct b; simpl; rewrite ?IH; auto.
  - rewrite E; auto.
Qed.

Lemma rstrip_sub_ws s : forall b, rstrip (sub_ws b s) = sub_ws b (rstrip s).
Proof.
  induction s as [|c s IH]; intros b; auto.
  rewrite (rstrip_cons c s).
  destruct (all_space (c :: s)) eqn:A.
  - apply rstrip_all_space. rewrite all_space_sub_ws; auto.
  - change (all_space (c :: s)) with (is_space c && all_space s) in A.
    simpl sub_ws. destruct (is_space c) eqn:E; simpl in A.
    + destruct b; auto.
      rewrite rstrip_cons.
      change (all_space (SPACE :: sub_ws true s))
        with (all_space (sub_ws true s)).
      rewrite all_space_sub_ws, A, IH. reflexivity.
    + rewrite rstrip_cons.
      change (all_space (c :: sub_ws false s))
        with (is_space c && all_space (sub_ws false s)).
      rewrite E, IH. reflexivity.
Qed.

Lemma lstrip_sub_ws s : forall b b',
  lstrip (sub_ws b s) = sub_ws b' (lstrip s).
Proof.
  induction s as [|c s IH]; intros b b'; auto.
  simpl. destruct (is_space c) eqn:E.
  - destruct b; simpl; auto.
  - simpl. rewrite E. reflexivity.
Qed.

(** The order of the two steps does not matter. *)
Lemma clean_collapse_then_trim txt : clean txt = strip (re_sub_ws txt).
Proof.
  unfold clean, strip, re_sub_ws.
  rewrite (lstrip_sub_ws txt false false). rewrite rstrip_sub_ws. reflexivity.
Qed.

Lemma sub_ws_spaces s : forall b c,
  In c (sub_ws b s) -> is_space c = true -> c = SPACE.
Proof.
  induction s as [|x s IH]; intros b c; simpl; [tauto|].
  destruct (is_space x) eqn:E.
  - destruct b; simpl; eauto. intros [<- | H]; eauto.
  - simpl. intros [<- | H] Hc; eauto. congruence.
Qed.

Lemma clean_spaces txt c : In c (clean txt) -> is_space c = true -> c = SPACE.
Proof. apply sub_ws_spaces. Qed.

Lemma clean_no_newline txt : ~ In NL (clean txt).
Proof. intros H. apply clean_spaces in H; [discriminate | reflexivity]. Qed.

(** * Occurrences of a word *)

Lemma lstrip_suffix s : exists pre, s = pre ++ lstrip s.
Proof.
  induction s as [|c s [pre IH]]; simpl.
  - exists []. reflexivity.
  - destruct (is_space c).
    + exists (c :: pre). simpl. congruence.
    + exists []. reflexivity.
Qed.

Lemma rstrip_prefix s : exists post, s = rstrip s ++ post.
Proof.
  unfold rstrip. destruct (lstrip_suffix (rev s)) as [pre E].
  exists (rev pre). rewrite <- rev_app_distr, <- E, rev_involutive. reflexivity.
Qed.

Lemma strip_infix s : exists pre post, s = pre ++ strip s ++ post.
Proof.
  unfold strip. destruct (lstrip_suffix s) as [pre E].
  destruct (rstrip_prefix (lstrip s)) as [post E'].
  exists pre, post. rewrite <- E'. exact E.
Qed.

Lemma sub_ws_prefix s : forall u rest,
  no_space u -> sub_ws false s = u ++ rest -> exists rest', s = u ++ rest'.
Proof.
  induction s as [|c s IH]; intros u rest Hu E; simpl in E.
  - destruct u; [|discriminate]. exists []. reflexivity.
  - destruct u as [|x u]; [eexists; reflexivity|].
    inversion Hu as [|? ? Hx Hu']; subst.
    destruct (is_space c) eqn:Ec; injection E as Ex E.
    + subst x. discriminate.
    + subst x. destruct (IH u rest Hu' E) as [rest' ->].
      exists rest'. reflexivity.
Qed.

Lemma sub_ws_infix s : forall b pre u post,
  no_space u -> u <> [] -> sub_ws b s = pre ++ u ++ post ->
  exists pre' post', s = pre' ++ u ++ post'.
Proof.
  induction s as [|c s IH]; intros b pre u post Hu Hne E; simpl in E.
  - destruct pre, u; try discriminate. congruence.
  - assert (Hrec : forall b' pre1, sub_ws b' s = pre1 ++ u ++ post ->
              exists pre' post', c :: s = pre' ++ u ++ post').
    { intros b' pre1 E1. destruct (IH b' pre1 u post Hu Hne E1) as (p & q & ->).
      exists (c :: p), q. reflexivity. }
    destruct (is_space c) eqn:Ec.
    + destruct b; [eauto|].
      destruct pre as [|x pre]; simpl in E.
      * destruct u as [|x u]; [congruence|].
        inversion Hu as [|? ? Hx Hu']; subst.
        injection E as Ex E. subst x. discriminate.
      * injection E as Ex E. eauto.
    + destruct pre as [|x pre]; simpl in E.
      * destruct (sub_ws_prefix (c :: s) u post Hu) as [rest' ->].
        { simpl. rewrite Ec. exact E. }
        exists [], rest'. reflexivity.
      * injection E as Ex E. eauto.
Qed.

Lemma clean_infix txt pre u post :
  no_space u -> u <> [] -> clean txt = pre ++ u ++ post ->
  exists pre' post', txt = pre' ++ u ++ post'.
Proof.
  intros Hu Hne E. unfold clean, re_sub_ws in E.
  apply sub_ws_infix in E as (p & q & E); auto.
  destruct (strip_infix txt) as (a & b & Et). rewrite E in Et.
  exists (a ++ p), (q ++ b). rewrite Et. rewrite <- !app_assoc. reflexivity.
Qed.

Lemma mentions_spec kw t :
  mentions kw t = true <-> exists pre u post, t = pre ++ u ++ post /\ ci_word kw u.
Proof.
  split.
  - induction t as [|c t IH]; simpl.
    + destruct (match_str kw []) as [rest|] eqn:E; [|discriminate]. intros _.
      apply match_str_sound in E as (u & E & Hu). exists [], u, rest. auto.
    + destruct (match_str kw (c :: t)) as [rest|] eqn:E.
      * intros _. apply match_str_sound in E as (u & E & Hu).
        exists [], u, rest. auto.
      * intros H. destruct (IH H) as (pre & u & post & -> & Hu).
        exists (c :: pre), u, post. auto.
  - intros (pre & u & post & -> & Hu). induction pre as [|c pre IH]; simpl.
    + pose proof (match_str_complete kw u post Hu) as E.
      destruct (u ++ post); simpl in *; rewrite E; reflexivity.
    + destruct (match_str kw (c :: pre ++ u ++ post)); auto.
Qed.

Lemma ci_word_no_space kw u :
  forallb is_lower_ascii kw = true -> ci_word kw u -> no_space u.
Proof.
  intros Hk H. induction H as [|k x kw u Hx H IH]; simpl in Hk.
  - constructor.
  - apply andb_true_iff in Hk as [Hk1 Hk2]. constructor.
    + eapply lit_ci_not_space; eauto.
    + apply IH; auto.
Qed.

Lemma mentions_clean kw txt :
  forallb is_lower_ascii kw = true -> kw <> [] ->
  mentions kw (clean txt) = true -> mentions kw txt = true.
Proof.
  intros Hk Hne H. apply mentions_spec in H as (pre & u & post & E & Hu).
  apply clean_infix in E as (p & q & ->).
  - apply mentions_spec. eauto.
  - eapply ci_word_no_space; eauto.
  - intros ->. inversion Hu; subst. congruence.
Qed.

(** * Lowering and prefixes *)

Lemma lower_char_cases c :
  lower_char c = [ascii_fold c]
  \/ (c = 0x130 /\ lower_char c = [0x69; 0x307] /\ ascii_fold c = c)
  \/ (c = 0x212A /\ lower_char c = [0x6B] /\ ascii_fold c = c).
Proof.
  unfold lower_char, ascii_fold.
  destruct (is_upper_ascii c); auto.
  destruct (N.eqb_spec c 0x130); auto.
  destruct (N.eqb_spec c 0x212A); auto.
Qed.

Lemma plain_char_eqb k x :
  plain_char k = true -> 0x80 <= x -> (k =? x) = false.
Proof. unfold plain_char, is_upper_ascii. intros P H. tests. Qed.

Lemma startswith_lower kw : forall name,
  plain kw = true -> startswith kw (lower name) = begins_ci kw name.
Proof.
  unfold begins_ci.
  induction kw as [|k kw IH]; intros name P; [reflexivity|].
  destruct name as [|c name]; [reflexivity|].
  simpl in P. apply andb_true_iff in P as [P P3].
  apply andb_true_iff in P as [P1 P2].
  specialize (IH name P3).
  change (lower (c :: name)) with (lower_char c ++ lower name).
  simpl map.
  destruct (lower_char_cases c) as [-> | [(-> & -> & ->) | (-> & -> & ->)]];
    cbn [app startswith].
  - rewrite IH. reflexivity.
  - rewrite (plain_char_eqb k 0x130) by (auto; lia).
    destruct (N.eqb_spec k 0x69); [subst k | reflexivity].
    destruct kw as [|k' kw]; [discriminate|].
    simpl in P3. apply andb_true_iff in P3 as [P3 _].
    apply andb_true_iff in P3 as [P3 _].
    cbn [startswith]. rewrite (plain_char_eqb k' 0x307) by (auto; lia).
    reflexivity.
  - rewrite (plain_char_eqb k 0x212A) by (auto; lia).
    unfold plain_char in P1. destruct (N.eqb_spec k 0x6B); [|reflexivity].
    subst k. discriminate.
Qed.

Lemma name_ok_rejected name : name_ok name = false <-> rejected name.
Proof.
  unfold name_ok, rejected, startswith_any, reject_prefixes. cbn [existsb].
  rewrite !startswith_lower by reflexivity.
  rewrite andb_false_iff, negb_false_iff, !orb_true_iff.
  rewrite Nat.ltb_ge. intuition discriminate.
Qed.

(** * The extension test *)

Lemma startswith_spec p : forall s,
  startswith p s = true <-> exists rest, s = p ++ rest.
Proof.
  induction p as [|k p IH]; intros s; simpl.
  - split; eauto.
  - destruct s as [|c s].
    + split; [discriminate | intros [rest H]; discriminate].
    + rewrite andb_true_iff, N.eqb_eq, IH. split.
      * intros [-> [rest ->]]. eauto.
      * intros [rest H]. injection H as -> ->. eauto.
Qed.

Lemma rev_lower s :
  rev (lower s) = flat_map (fun c => rev (lower_char c)) (rev s).
Proof.
  unfold lower. induction s as [|c s IH]; simpl; auto.
  rewrite rev_app_distr, IH, flat_map_app. simpl. rewrite app_nil_r. reflexivity.
Qed.

Lemma startswith_rev_lower kw : forall m,
  forallb plain_char kw = true ->
  startswith kw (flat_map (fun c => rev (lower_char c)) m)
  = startswith kw (map ascii_fold m).
Proof.
  induction kw as [|k kw IH]; intros m P; [reflexivity|].
  destruct m as [|c m]; [reflexivity|].
  simpl in P. apply andb_true_iff in P as [P1 P2].
  specialize (IH m P2). simpl flat_map. simpl map.
  destruct (lower_char_cases c) as [-> | [(-> & -> & ->) | (-> & -> & ->)]];
    cbn [rev app startswith].
  - rewrite IH. reflexivity.
  - rewrite (plain_char_eqb k 0x130), (plain_char_eqb k 0x307) by (auto; lia).
    reflexivity.
  - rewrite (plain_char_eqb k 0x212A) by (auto; lia).
    unfold plain_char in P1. destruct (N.eqb_spec k 0x6B); [|reflexivity].
    subst k. discriminate.
Qed.

Theorem is_pdf_spec f : is_pdf f = true <-> has_pdf_extension f.
Proof.
  unfold is_pdf, endswith, has_pdf_extension.
  rewrite rev_lower, startswith_rev_lower by reflexivity.
  rewrite startswith_spec. split.
  - intros [rest E]. rewrite map_rev in E.
    apply (f_equal (@rev char)) in E.
    rewrite rev_involutive, rev_app_distr, rev_involutive in E.
    apply map_eq_app in E as (stem & ext & -> & _ & E). eauto.
  - intros (stem & ext & -> & E). exists (rev (map ascii_fold stem)).
    rewrite map_rev, map_app, rev_app_distr, E. reflexivity.
Qed.

(** * What the patterns capture *)

Lemma binds_lang r w g g' :
  lang r w g g' -> binds r = true \/ g <> None -> g' <> None.
Proof.
  induction 1; simpl; intros [B | G]; try discriminate; auto.
  - apply orb_true_iff in B as [B | B]; auto.
  - apply andb_true_iff in B as [B _]; auto.
  - apply andb_true_iff in B as [_ B]; auto.
Qed.

Lemma re_search_binds r t m :
  binds r = true -> re_search r t = Some m -> exists g, m = Some g.
Proof.
  intros B H. apply re_search_sound in H as (pre & w & post & _ & L).
  apply binds_lang in L; auto. destruct m; [eauto | congruence].
Qed.

Lemma all_rules_bind : forallb binds all_rules = true.
Proof. reflexivity. Qed.

Lemma rules_bind f p : In p (rules_of f) -> binds p = true.
Proof.
  intros H. pose proof all_rules_bind as A.
  rewrite forallb_forall in A. apply A. unfold all_rules.
  rewrite !in_app_iff. destruct f; cbn [rules_of] in H; tauto.
Qed.

Lemma text_eqb_eq a : forall b, text_eqb a b = true <-> a = b.
Proof.
  induction a as [|x a IH]; intros [|y b]; simpl; split;
    try discriminate; auto.
  - rewrite andb_true_iff, N.eqb_eq, IH. intros [-> ->]; auto.
  - intros E. injection E as -> ->. rewrite N.eqb_refl. simpl. apply IH; auto.
Qed.

Lemma requires_lang kws r w g g' :
  lang r w g g' -> requires kws r = true ->
  exists kw pre u post, In kw kws /\ w = pre ++ u ++ post /\ ci_word kw u.
Proof.
  induction 1; simpl; intros Q; try discriminate.
  - apply existsb_exists in Q as (kw' & Hin & E).
    apply text_eqb_eq in E as <-.
    exists kw, [], u, []. rewrite app_nil_r. auto.
  - apply orb_true_iff in Q as [Q | Q].
    + destruct (IHlang1 Q) as (kw & pre & u & post & Hin & -> & Hu).
      exists kw, pre, u, (post ++ w2). rewrite <- !app_assoc. auto.
    + destruct (IHlang2 Q) as (kw & pre & u & post & Hin & -> & Hu).
      exists kw, (w1 ++ pre), u, post. rewrite <- !app_assoc. auto.
  - apply andb_true_iff in Q as [Q _]. auto.
  - apply andb_true_iff in Q as [_ Q]. auto.
  - auto.
Qed.

Lemma found_mentions kws r t :
  requires kws r = true -> found r t ->
  exists kw, In kw kws /\ mentions kw t = true.
Proof.
  intros Q (pre & w & post & g & -> & L).
  destruct (requires_lang kws _ _ _ _ L Q) as (kw & p & u & q & Hin & -> & Hu).
  exists kw. split; auto. apply mentions_spec.
  exists (pre ++ p), u, (q ++ post). rewrite <- !app_assoc. auto.
Qed.

Lemma group_lang cs r w g g' :
  lang r w g g' -> ends_with_group_of cs r ->
  exists pre span, w = pre ++ span /\ g' = Some span /\ all_in cs span.
Proof.
  induction 1; simpl; intros E; try contradiction.
  - destruct (IHlang2 E) as (pre & span & -> & -> & A).
    exists (w1 ++ pre), span. rewrite <- app_assoc. auto.
  - destruct r; try contradiction. subst. inversion H; subst.
    exists [], w. auto.
Qed.

(** * The loops *)

Lemma captured_some p t g :
  captured p t = Some g <-> re_search p t = Some (Some g).
Proof.
  unfold captured. destruct (re_search p t) as [[g'|]|]; simpl; split;
    intros H; try discriminate; inversion H; subst; reflexivity.
Qed.


Lemma constituency_loop_spec ps t data :
  Forall (fun p => binds p = true) ps ->
  constituency_loop ps t data =
    Ok match first_value Constituency ps t with
       | Some v => dict_set "constituency_name" v data
       | None => data
       end.
Proof.
  induction 1 as [|p ps B _ IH]; simpl; auto.
  unfold rule_value, captured.
  destruct (re_search p t) as [m|] eqn:E; auto.
  destruct (re_search_binds _ _ _ B E) as [g ->].
  destruct (name_ok (strip g)); auto.
Qed.

Lemma numeric_loop_spec f ps t data :
  is_numeric f = true ->
  Forall (fun p => binds p = true) ps ->
  numeric_loop (key_of f) ps t data =
    Ok match first_value f ps t with
       | Some v => dict_set (key_of f) v data
       | None => data
       end.
Proof.
  intros N. induction 1 as [|p ps B _ IH]; simpl; auto.
  unfold rule_value, captured.
  destruct (re_search p t) as [m|] eqn:E; auto.
  destruct (re_search_binds _ _ _ B E) as [g ->].
  destruct f; try discriminate; reflexivity.
Qed.

Lemma rules_bind_all f : Forall (fun p => binds p = true) (rules_of f).
Proof. apply Forall_forall. apply rules_bind. Qed.

(** The functional reading of the four loops. *)
Theorem extract_fields_spec t filename :
  extract_fields t filename =
    Ok (record_of filename (field_value Constituency t) (field_value Electors t)
          (field_value ValidVotes t) (field_value Nota t)).
Proof.
  unfold extract_fields, field_value.
  rewrite (constituency_loop_spec _ _ _ (rules_bind_all Constituency)).
  cbn [bind].
  rewrite (numeric_loop_spec Electors _ _ _ eq_refl (rules_bind_all Electors)).
  cbn [bind].
  rewrite (numeric_loop_spec ValidVotes _ _ _ eq_refl (rules_bind_all ValidVotes)).
  cbn [bind].
  rewrite (numeric_loop_spec Nota _ _ _ eq_refl (rules_bind_all Nota)).
  cbn [bind rules_of].
  destruct (first_value Constituency constituency_patterns t),
    (first_value Electors elector_patterns t),
    (first_value ValidVotes valid_votes_patterns t),
    (first_value Nota nota_patterns t); reflexivity.
Qed.

Lemma first_value_some f ps t v :
  first_value f ps t = Some v <->
  exists i p, nth_error ps i = Some p /\ rule_value f p t = Some v
    /\ forall j q, (j < i)%nat -> nth_error ps j = Some q ->
                   rule_value f q t = None.
Proof.
  induction ps as [|p ps IH]; simpl.
  - split; [discriminate|]. intros ([|i] & q & H & _); discriminate.
  - destruct (rule_value f p t) as [v'|] eqn:E.
    + split.
      * intros H. exists O, p. simpl. repeat split; auto; try congruence.
        intros j q Hj. lia.
      * intros ([|i] & q & Hn & Hv & Hprev); simpl in Hn.
        -- congruence.
        -- specialize (Hprev O p). simpl in Hprev.
           rewrite Hprev in E; [discriminate | lia | reflexivity].
    + rewrite IH. split.
      * intros (i & q & Hn & Hv & Hprev). exists (S i), q. simpl.
        repeat split; auto. intros [|j] q' Hj Hq; simpl in Hq.
        -- congruence.
        -- apply (Hprev j q'); auto. lia.
      * intros ([|i] & q & Hn & Hv & Hprev); simpl in Hn.
        -- congruence.
        -- exists i, q. repeat split; auto. intros j q' Hj Hq.
           apply (Hprev (S j) q'); auto. lia.
Qed.

Lemma first_value_none f ps t :
  first_value f ps t = None <-> forall p, In p ps -> rule_value f p t = None.
Proof.
  induction ps as [|p ps IH]; simpl.
  - split; auto. intros _ p [].
  - destruct (rule_value f p t) eqn:E.
    + split; [discriminate|]. intros H.
      rewrite (H p (or_introl eq_refl)) in E. discriminate.
    + rewrite IH. split.
      * intros H q [<- | Hq]; auto.
      * intros H q Hq. auto.
Qed.

Lemma extract_spec txt filename :
  extract_data_from_text txt filename =
    Ok (record_of filename
          (field_value Constituency (clean txt)) (field_value Electors (clean txt))
          (field_value ValidVotes (clean txt)) (field_value Nota (clean txt))).
Proof. apply extract_fields_spec. Qed.

Lemma record_get filename a b c e f :
  dict_get (key_of f) (record_of filename a b c e) =
    Some match f with
         | Constituency => a | Electors => b | ValidVotes => c | Nota => e
         end.
Proof. destruct f; reflexivity. Qed.

Lemma extract_get txt filename d f :
  extract_data_from_text txt filename = Ok d ->
  dict_get (key_of f) d = Some (field_value f (clean txt)).
Proof.
  rewrite extract_spec. intros H. injection H as <-.
  rewrite record_get. destruct f; reflexivity.
Qed.

Lemma all_rules_labelled : forallb (requires label_words) all_rules = true.
Proof. reflexivity. Qed.

Lemma rules_labelled f p : In p (rules_of f) -> requires label_words p = true.
Proof.
  intros H. pose proof all_rules_labelled as A.
  rewrite forallb_forall in A. apply A. unfold all_rules.
  rewrite !in_app_iff. destruct f; cbn [rules_of] in H; tauto.
Qed.

Lemma label_words_lower :
  forallb (fun kw => forallb is_lower_ascii kw && nonempty kw) label_words = true.
Proof. reflexivity. Qed.

Lemma no_labels_no_match txt f p :
  no_labels txt = true -> In p (rules_of f) -> re_search p (clean txt) = None.
Proof.
  intros N Hp. destruct (re_search p (clean txt)) as [m|] eqn:E; auto.
  exfalso.
  assert (F : found p (clean txt)) by (apply re_search_found; congruence).
  destruct (found_mentions _ _ _ (rules_labelled _ _ Hp) F) as (kw & Hkw & M).
  pose proof label_words_lower as L. rewrite forallb_forall in L.
  specialize (L kw Hkw). apply andb_true_iff in L as [L1 L2].
  apply mentions_clean in M; auto.
  - unfold no_labels in N. rewrite forallb_forall in N.
    specialize (N kw Hkw). rewrite M in N. discriminate.
  - intros ->. discriminate.
Qed.

Lemma rule_value_no_match f p t : re_search p t = None -> rule_value f p t = None.
Proof. unfold rule_value, captured. intros ->. reflexivity. Qed.

Lemma field_value_empty f t :
  (forall p, In p (rules_of f) -> rule_value f p t = None) -> field_value f t = [].
Proof.
  intros H. unfold field_value.
  apply first_value_none in H. rewrite H. reflexivity.
Qed.

(** C1. [extract_data_from_text] returns, for every text and file name, a
    record with exactly the five keys; a field none of whose rules yields a
    value is the empty string, and so are all four on a text without any
    label word. *)
Theorem extract_total txt filename :
  exists d,
    extract_data_from_text txt filename = Ok d
    /\ keys d = record_keys
    /\ dict_get "filename" d = Some filename
    /\ (forall f, exists v, dict_get (key_of f) d = Some v)
    /\ (forall f,
          (forall p, In p (rules_of f) -> rule_value f p (clean txt) = None) ->
          dict_get (key_of f) d = Some [])
    /\ (no_labels txt = true -> forall f, dict_get (key_of f) d = Some []).
Proof.
  eexists. split; [apply extract_spec|].
  split; [reflexivity|]. split; [reflexivity|].
  split; [|split].
  - intros f. rewrite record_get. eauto.
  - intros f H. rewrite record_get. apply field_value_empty in H.
    destruct f; rewrite <- H; reflexivity.
  - intros N f. rewrite record_get.
    assert (H : field_value f (clean txt) = []).
    { apply field_value_empty. intros p Hp. apply rule_value_no_match.
      eapply no_labels_no_match; eauto. }
    destruct f; rewrite <- H; reflexivity.
Qed.

Lemma extract_total_witness :
  no_labels (str "Page 3 of 12 -- 4,500 copies") = true
  /\ exists d,
       extract_data_from_text (str "Page 3 of 12 -- 4,500 copies") (str "a.pdf")
         = Ok d
       /\ forall f, dict_get (key_of f) d = Some [].
Proof.
  split; [reflexivity|].
  destruct (extract_total (str "Page 3 of 12 -- 4,500 copies") (str "a.pdf"))
    as (d & E & _ & _ & _ & _ & H).
  exists d. split; [exact E|]. apply H. reflexivity.
Defined.

(** C2. The end-to-end scenario of the specification. *)
Theorem end_to_end_scenario filename :
  extract_data_from_text scenario_text filename =
    Ok (record_of filename (str "Example East") (str "45678") (str "38234")
          (str "1234")).
Proof. vm_compute. reflexivity. Qed.

(** C3. Within a field the rules are tried in list order and the first one
    that yields a value decides the field, whatever later rules match. *)
Theorem first_rule_wins txt filename d f i p v :
  extract_data_from_text txt filename = Ok d ->
  nth_error (rules_of f) i = Some p ->
  rule_value f p (clean txt) = Some v ->
  (forall j q, (j < i)%nat -> nth_error (rules_of f) j = Some q ->
               rule_value f q (clean txt) = None) ->
  dict_get (key_of f) d = Some v.
Proof.
  intros E Hn Hv Hprev. rewrite (extract_get _ _ _ f E). unfold field_value.
  assert (H : first_value f (rules_of f) (clean txt) = Some v).
  { apply first_value_some. eauto. }
  rewrite H. reflexivity.
Qed.

Lemma first_rule_wins_witness :
  rule_value Electors (nth 0 elector_patterns Eps) (clean two_rules_text)
    = Some (str "7")
  /\ rule_value Electors (nth 1 elector_patterns Eps) (clean two_rules_text)
    = Some (str "5")
  /\ exists d,
       extract_data_from_text two_rules_text (str "a.pdf") = Ok d
       /\ dict_get "total_electors" d = Some (str "7").
Proof.
  split; [vm_compute; reflexivity|]. split; [vm_compute; reflexivity|].
  exists (record_of (str "a.pdf") [] (str "7") [] []).
  assert (E : extract_data_from_text two_rules_text (str "a.pdf")
              = Ok (record_of (str "a.pdf") [] (str "7") [] []))
    by (vm_compute; reflexivity).
  split; [exact E|].
  apply (first_rule_wins two_rules_text (str "a.pdf") _ Electors 0
           (nth 0 elector_patterns Eps) (str "7") E).
  - reflexivity.
  - vm_compute; reflexivity.
  - intros j q Hj. lia.
Defined.

Lemma constituency_loop_skip p rest t data g :
  captured p t = Some g -> rejected (strip g) ->
  constituency_loop (p :: rest) t data = constituency_loop rest t data.
Proof.
  intros C R. apply captured_some in C. apply name_ok_rejected in R.
  simpl. rewrite C, R. reflexivity.
Qed.

(** C4. A constituency candidate is trimmed, and it is rejected exactly when
    it has at most three characters or begins, letter case ignored, with
    total, number or election; the loop then goes on with the next rule, and
    the field stays empty when every candidate is rejected. *)
Theorem reject_list_enforced :
  (forall name, name_ok name = false <-> rejected name)
  /\ (forall p rest t data g,
        captured p t = Some g -> rejected (strip g) ->
        constituency_loop (p :: rest) t data = constituency_loop rest t data)
  /\ (forall txt filename d,
        extract_data_from_text txt filename = Ok d ->
        (forall p g, In p constituency_patterns ->
                     captured p (clean txt) = Some g -> rejected (strip g)) ->
        dict_get "constituency_name" d = Some []).
Proof.
  split; [apply name_ok_rejected|]. split; [apply constituency_loop_skip|].
  intros txt filename d E H.
  pose proof (extract_get _ _ _ Constituency E) as G. cbn [key_of] in G.
  rewrite G, field_value_empty; auto.
  intros p Hp. unfold rule_value.
  destruct (captured p (clean txt)) as [g|] eqn:C; auto.
  specialize (H p g Hp C). apply name_ok_rejected in H.
  rewrite H. reflexivity.
Qed.

Lemma reject_list_enforced_witness :
  (captured (nth 1 constituency_patterns Eps) (clean rejected_then_accepted_text)
     = Some (str "Total votes ")
   /\ rejected (strip (str "Total votes "))
   /\ constituency_loop (skipn 1 constituency_patterns)
        (clean rejected_then_accepted_text) (new_record (str "a.pdf"))
      = constituency_loop (skipn 2 constituency_patterns)
          (clean rejected_then_accepted_text) (new_record (str "a.pdf"))
   /\ exists d, extract_data_from_text rejected_then_accepted_text (str "a.pdf")
                = Ok d
                /\ dict_get "constituency_name" d = Some (str "Abcde"))
  /\ exists d, extract_data_from_text all_rejected_text (str "a.pdf") = Ok d
               /\ dict_get "constituency_name" d = Some [].
Proof.
  destruct reject_list_enforced as (_ & Hskip & Hempty).
  assert (C : captured (nth 1 constituency_patterns Eps)
                (clean rejected_then_accepted_text) = Some (str "Total votes "))
    by (vm_compute; reflexivity).
  assert (R : rejected (strip (str "Total votes ")))
    by (right; left; vm_compute; reflexivity).
  split.
  - split; [exact C|]. split; [exact R|]. split.
    + exact (Hskip _ (skipn 2 constituency_patterns) _
               (new_record (str "a.pdf")) _ C R).
    + exists (record_of (str "a.pdf") (str "Abcde") [] [] []).
      split; vm_compute; reflexivity.
  - exists (record_of (str "a.pdf") [] [] [] []).
    split; [vm_compute; reflexivity|].
    apply (Hempty all_rejected_text (str "a.pdf")); [vm_compute; reflexivity|].
    intros p g Hp C'. unfold constituency_patterns in Hp. cbn [In] in Hp.
    destruct Hp as [<- | [<- | [<- | [<- | [<- | []]]]]]; vm_compute in C';
      try discriminate; injection C' as <-;
      right; left; vm_compute; reflexivity.
Defined.

(** * Digit spans *)

Lemma replace_comma s : replace [COMMA] [] s = filter not_comma s.
Proof.
  unfold replace. induction s as [|c s IH]; auto.
  cbn [replace_from startswith List.length pred app filter].
  unfold not_comma at 1. rewrite N.eqb_sym.
  destruct (c =? COMMA); cbn [andb negb]; rewrite IH; reflexivity.
Qed.

Lemma filter_commas_digits s :
  forallb is_digit_or_comma s = true ->
  forallb is_digit (filter not_comma s) = true.
Proof.
  induction s as [|c s IH]; simpl; auto.
  rewrite andb_true_iff. intros [Hc Hs].
  unfold not_comma at 1. unfold is_digit_or_comma in Hc.
  destruct (c =? COMMA); simpl; auto.
  rewrite orb_false_r in Hc. rewrite Hc. auto.
Qed.

Lemma numeric_rules_end_with_digits f :
  is_numeric f = true ->
  Forall (ends_with_group_of digits_commas) (rules_of f).
Proof.
  destruct f; try discriminate; intros _;
    repeat constructor.
Qed.

Lemma captured_span f p t span :
  is_numeric f = true -> In p (rules_of f) -> captured p t = Some span ->
  forallb is_digit_or_comma span = true
  /\ exists pre post, t = pre ++ span ++ post.
Proof.
  intros N Hp C. apply captured_some in C.
  apply re_search_sound in C as (pre & w & post & -> & L).
  pose proof (numeric_rules_end_with_digits f N) as E.
  rewrite Forall_forall in E. specialize (E p Hp).
  destruct (group_lang _ _ _ _ _ L E) as (pre' & span' & -> & G & A).
  injection G as <-. split.
  - apply forallb_forall. intros x Hx. apply digits_commas_spec.
    unfold all_in in A. rewrite Forall_forall in A. auto.
  - exists (pre ++ pre'), post. rewrite <- !app_assoc. reflexivity.
Qed.

Lemma field_value_digits f t :
  is_numeric f = true -> forallb is_digit (field_value f t) = true.
Proof.
  intros N. unfold field_value.
  destruct (first_value f (rules_of f) t) as [v|] eqn:E; auto.
  apply first_value_some in E as (i & p & Hn & Hv & _).
  apply nth_error_In in Hn. unfold rule_value in Hv.
  destruct (captured p t) as [g|] eqn:C; [|discriminate].
  destruct (captured_span f p t g N Hn C) as [D _].
  destruct f; try discriminate; injection Hv as <-;
    rewrite replace_comma; apply filter_commas_digits; auto.
Qed.

(** C5. A numeric field holds digits only; when a rule matched, it is the
    digit span the first matching rule captured, a stretch of digits and
    commas of the cleaned text, with the commas removed and the digits in
    their order. *)
Theorem numeric_fields_digits_only txt filename d f :
  extract_data_from_text txt filename = Ok d ->
  is_numeric f = true ->
  exists v,
    dict_get (key_of f) d = Some v
    /\ forallb is_digit v = true
    /\ forall i p span,
         nth_error (rules_of f) i = Some p ->
         captured p (clean txt) = Some span ->
         (forall j q, (j < i)%nat -> nth_error (rules_of f) j = Some q ->
                      captured q (clean txt) = None) ->
         v = filter not_comma span
         /\ forallb is_digit_or_comma span = true
         /\ exists pre post, clean txt = pre ++ span ++ post.
Proof.
  intros E N. exists (field_value f (clean txt)).
  split; [apply (extract_get _ _ _ f E)|].
  split; [apply field_value_digits; auto|].
  intros i p span Hn C Hprev.
  destruct (captured_span f p _ span N (nth_error_In _ _ Hn) C) as [D O].
  split; [|auto].
  assert (V : first_value f (rules_of f) (clean txt)
              = Some (replace [COMMA] [] span)).
  { apply first_value_some. exists i, p. split; [auto|]. split.
    - unfold rule_value. rewrite C. destruct f; try discriminate; reflexivity.
    - intros j q Hj Hq. unfold rule_value. rewrite (Hprev j q Hj Hq).
      reflexivity. }
  unfold field_value. rewrite V. apply replace_comma.
Qed.

Lemma numeric_fields_digits_only_witness :
  captured (nth 0 elector_patterns Eps) (clean grouped_number_text)
    = Some (str "45,678")
  /\ exists d,
       extract_data_from_text grouped_number_text (str "a.pdf") = Ok d
       /\ dict_get "total_electors" d = Some (str "45678").
Proof.
  assert (C : captured (nth 0 elector_patterns Eps) (clean grouped_number_text)
              = Some (str "45,678")) by (vm_compute; reflexivity).
  split; [exact C|].
  exists (record_of (str "a.pdf") [] (str "45678") [] []).
  assert (E : extract_data_from_text grouped_number_text (str "a.pdf")
              = Ok (record_of (str "a.pdf") [] (str "45678") [] []))
    by (vm_compute; reflexivity).
  split; [exact E|].
  destruct (numeric_fields_digits_only grouped_number_text (str "a.pdf") _
              Electors E eq_refl) as (v & G & _ & H).
  destruct (H O _ (str "45,678") eq_refl C) as (-> & _).
  - intros j q Hj. lia.
  - exact G.
Defined.

(** * The batch loop *)

Section BatchFacts.
Variable title : text -> text.
Variable cfg : config.
Variable self : PDFParser.




Lemma extract_text_spec pdf_file w :
  exists w',
    extract_text_from_pdf title self (os_path_join (PDF_FOLDER cfg) pdf_file) w
      = (Ok (provided_text title cfg self pdf_file), w')
    /\ same_files w w'.
Proof.
  unfold extract_text_from_pdf, provided_text.
  destruct (client self) as [pd|].
  - destruct (pd _); eexists; split; try reflexivity; repeat split.
  - eexists; split; try reflexivity; repeat split.
Qed.

Lemma process_loop_spec n files : forall i all_data w,
  exists recs w',
    process_loop title cfg self n i files all_data w
      = (Ok (all_data ++ recs), w')
    /\ Forall2 (fun f d =>
                  extract_data_from_text (provided_text title cfg self f) f
                  = Ok d) (kept title cfg self files) recs
    /\ same_files w w'.
Proof.
  induction files as [|f files IH]; intros i all_data w.
  - exists [], w. rewrite app_nil_r. repeat split. constructor.
  - cbn [process_loop]. unfold io_bind at 1. cbn [print].
    unfold io_bind at 1.
    match goal with |- context [extract_text_from_pdf _ _ _ ?w0] =>
      destruct (extract_text_spec f w0) as (w1 & -> & S1) end.
    unfold kept, has_text. cbn [filter].
    destruct (provided_text title cfg self f) as [|c txt] eqn:T.
    + cbn [nonempty]. unfold io_bind at 1. cbn [print].
      match goal with |- context [process_loop _ _ _ _ ?j _ _ ?w0] =>
        destruct (IH j all_data w0) as (recs & w' & -> & F & S2) end.
      exists recs, w'. repeat split; auto; try apply F;
        destruct S1 as (? & ? & ?), S2 as (? & ? & ?); simpl in *; congruence.
    + cbn [nonempty]. unfold io_bind at 1, lift.
      rewrite extract_spec.
      match goal with |- context [process_loop _ _ _ _ ?j _ ?a ?w0] =>
        destruct (IH j a w0) as (recs & w' & -> & F & S2) end.
      eexists (_ :: recs), w'. rewrite <- app_assoc. split; [reflexivity|].
      split.
      * constructor; auto. rewrite T. apply extract_spec.
      * destruct S1 as (? & ? & ?), S2 as (? & ? & ?); repeat split;
          simpl in *; congruence.
Qed.

Lemma mock_text_nonempty pdf_path : nonempty (_mock_pdf_text title pdf_path) = true.
Proof. reflexivity. Qed.

Lemma kept_mock files : client self = None -> kept title cfg self files = files.
Proof.
  intros M. unfold kept. induction files as [|f files IH]; simpl; auto.
  unfold has_text at 1, provided_text. rewrite M, mock_text_nonempty.
  congruence.
Qed.

Lemma filenames_of_records files recs :
  Forall2 (fun f d =>
             extract_data_from_text (provided_text title cfg self f) f = Ok d)
    files recs ->
  map (dict_get "filename") recs = map Some files.
Proof.
  induction 1 as [|f d files recs E _ IH]; simpl; auto.
  rewrite extract_spec in E. injection E as <-. simpl. congruence.
Qed.
End BatchFacts.



(** C7. The text the patterns see is the raw text with every run of
    whitespace collapsed to one space and both ends trimmed: its words joined
    by single spaces. *)
Theorem normalisation txt filename :
  clean txt = unwords (words txt)
  /\ clean txt = strip (re_sub_ws txt)
  /\ forallb (fun c => negb (is_space c) || (c =? SPACE)) (clean txt) = true
  /\ extract_data_from_text txt filename
     = extract_fields (unwords (words txt)) filename.
Proof.
  split; [apply clean_unwords|]. split; [apply clean_collapse_then_trim|].
  split.
  - apply forallb_forall. intros c Hc.
    destruct (is_space c) eqn:E; auto.
    rewrite (clean_spaces txt c Hc E). reflexivity.
  - unfold extract_data_from_text. rewrite clean_unwords. reflexivity.
Qed.

(** * The exporter *)

Lemma first_seen_known ks : forall seen,
  (forall k, In k ks -> In k seen) -> first_seen seen ks = [].
Proof.
  induction ks as [|k ks IH]; intros seen H; simpl; auto.
  assert (E : existsb (String.eqb k) seen = true).
  { apply existsb_exists. exists k. split; [apply H; left; auto|].
    apply String.eqb_refl. }
  rewrite E. apply IH. intros k' Hk'. apply H. right. auto.
Qed.

Lemma keys_of_extracted d :
  (exists txt f, extract_data_from_text txt f = Ok d) -> keys d = record_keys.
Proof. intros (txt & f & E). rewrite extract_spec in E. injection E as <-. reflexivity. Qed.

Lemma existsb_eqb_in k seen :
  existsb (String.eqb k) seen = true <-> In k seen.
Proof.
  rewrite existsb_exists. split.
  - intros (x & H & E). apply String.eqb_eq in E. congruence.
  - intros H. exists k. split; auto. apply String.eqb_refl.
Qed.

Lemma first_seen_fresh ks : forall seen rest,
  NoDup ks -> (forall k, In k ks -> ~ In k seen) ->
  first_seen seen (ks ++ rest) = ks ++ first_seen (rev ks ++ seen) rest.
Proof.
  induction ks as [|k ks IH]; intros seen rest N D; [reflexivity|].
  inversion N as [|? ? Hk N']; subst. cbn [app first_seen].
  destruct (existsb (String.eqb k) seen) eqn:E.
  - apply existsb_eqb_in in E. exfalso. apply (D k); simpl; auto.
  - rewrite (IH (k :: seen) rest N').
    + simpl rev. rewrite <- app_assoc. reflexivity.
    + intros k' Hk' [<- | H]; auto. apply (D k'); simpl; auto.
Qed.

Lemma columns_uniform ks data :
  data <> [] -> (forall d, In d data -> keys d = ks) -> NoDup ks ->
  first_seen [] (flat_map keys data) = ks.
Proof.
  intros Hne H N. destruct data as [|d data]; [congruence|].
  simpl flat_map. rewrite (H d) by (left; auto).
  rewrite first_seen_fresh by auto.
  rewrite first_seen_known; [apply app_nil_r|].
  intros k Hk. apply in_flat_map in Hk as (d' & Hd' & Hk).
  rewrite (H d') in Hk by (right; auto).
  rewrite in_app_iff, <- in_rev. auto.
Qed.

Lemma dict_get_other k v c d :
  c <> k -> dict_get c ((k, v) :: d) = dict_get c d.
Proof.
  intros H. simpl. destruct (String.eqb_spec c k); [congruence | reflexivity].
Qed.

Lemma row_in_key_order d :
  NoDup (keys d) -> map (fun c => dict_get c d) (keys d) = map Some (values d).
Proof.
  unfold keys, values.
  induction d as [|[k v] d IH]; intros N; [reflexivity|].
  inversion N as [|? ? Hk N']; subst. cbn [map fst snd].
  f_equal.
  - simpl. rewrite String.eqb_refl. reflexivity.
  - rewrite <- IH by auto. apply map_ext_in. intros c Hc.
    apply dict_get_other. intros ->. auto.
Qed.

Lemma nodup_record_keys : NoDup record_keys.
Proof. repeat constructor; simpl; intuition discriminate. Qed.

(** [os.makedirs] either raises and changes nothing, or returns with the
    directory there and nothing else changed. *)
Lemma makedirs_cases path w :
  (exists e,
     makedirs path w = (Raise e, w) /\ raised (makedirs path) w = Some e)
  \/ (exists w1,
        makedirs path w = (Ok tt, w1) /\ raised (makedirs path) w = None
        /\ In path (directories w1)
        /\ workbooks w1 = workbooks w /\ stdout w1 = stdout w
        /\ pdf_folder w1 = pdf_folder w
        /\ same_environment w w1).
Proof.
  unfold raised, makedirs. destruct path as [|c path].
  - left. eexists. split; reflexivity.
  - destruct (existsb (text_eqb (c :: path)) (directories w)) eqn:E.
    + right. exists w. repeat split.
      apply existsb_exists in E as (x & H & E). apply text_eqb_eq in E.
      congruence.
    + destruct (mkdir_error w (c :: path)) as [e|].
      * left. eexists. split; reflexivity.
      * right. eexists. repeat split. left. reflexivity.
Qed.

Lemma makedirs_raised path w w' :
  directories w' = directories w -> mkdir_error w' = mkdir_error w ->
  raised (makedirs path) w' = raised (makedirs path) w.
Proof.
  intros D M. unfold raised, makedirs. rewrite D, M.
  destruct path as [|c path]; [reflexivity|].
  destruct (existsb _ _); [reflexivity|].
  destruct (mkdir_error w (c :: path)); reflexivity.
Qed.

Lemma makedirs_known path w :
  path <> [] -> In path (directories w) -> raised (makedirs path) w = None.
Proof.
  intros P H. unfold raised, makedirs. destruct path as [|c path]; [congruence|].
  assert (E : existsb (text_eqb (c :: path)) (directories w) = true).
  { apply existsb_exists. exists (c :: path). split; auto.
    apply text_eqb_eq. reflexivity. }
  rewrite E. reflexivity.
Qed.

Lemma save_nonempty cfg data w :
  data <> [] ->
  save_to_excel cfg data w =
    (makedirs (OUTPUT_FOLDER cfg) ;;;
     df <~ lift (set_columns headers (pd_DataFrame data)) ;;
     let output_path := os_path_join (OUTPUT_FOLDER cfg) (OUTPUT_FILE cfg) in
     to_excel output_path df ;;;
     print (DataSavedTo output_path) ;;;
     print (TotalRecords (List.length data))) w.
Proof. destruct data; [congruence | reflexivity]. Qed.

(** The exporter on records that share one list of distinct keys. *)
Lemma save_uniform cfg data w ks :
  data <> [] -> (forall d, In d data -> keys d = ks) -> NoDup ks ->
  let output_path := os_path_join (OUTPUT_FOLDER cfg) (OUTPUT_FILE cfg) in
  (forall e, raised (makedirs (OUTPUT_FOLDER cfg)) w = Some e ->
     save_to_excel cfg data w = (Raise e, w))
  /\ (raised (makedirs (OUTPUT_FOLDER cfg)) w = None ->
      exists w1,
        makedirs (OUTPUT_FOLDER cfg) w = (Ok tt, w1)
        /\ In (OUTPUT_FOLDER cfg) (directories w1)
        /\ workbooks w1 = workbooks w /\ stdout w1 = stdout w
        /\ (List.length ks <> 5%nat ->
            save_to_excel cfg data w = (Raise ValueError, w1))
        /\ (List.length ks = 5%nat ->
            (forall e, write_error w output_path (table_of data) = Some e ->
               save_to_excel cfg data w = (Raise e, w1))
            /\ (write_error w output_path (table_of data) = None ->
                exists w',
                  save_to_excel cfg data w = (Ok tt, w')
                  /\ workbooks w'
                     = (output_path, table_of data) :: workbooks w
                  /\ directories w' = directories w1
                  /\ stdout w'
                     = stdout w ++ [DataSavedTo output_path;
                                    TotalRecords (List.length data)]))).
Proof.
  intros Hne H N output_path.
  assert (R : map (fun d => map (fun c => dict_get c d) ks) data
              = map (fun d => map Some (values d)) data).
  { apply map_ext_in. intros d Hd. rewrite <- (H d Hd).
    apply row_in_key_order. rewrite (H d Hd). exact N. }
  rewrite (save_nonempty cfg data w Hne).
  unfold pd_DataFrame. rewrite (columns_uniform ks data Hne H N), R.
  unfold set_columns. cbn [columns rows].
  change (List.length headers) with 5%nat.
  fold (table_of data). fold output_path. cbv zeta.
  destruct (makedirs_cases (OUTPUT_FOLDER cfg) w)
    as [(e & M & Rm) | (w1 & M & Rm & Hin & Hw & Hs & _ & (_ & He))];
    rewrite Rm.
  - split; [|discriminate]. intros e' [= <-].
    unfold io_bind at 1. rewrite M. reflexivity.
  - split; [discriminate|]. intros _. exists w1.
    split; [exact M|]. split; [exact Hin|]. split; [exact Hw|].
    split; [exact Hs|]. split.
    + intros L. destruct (Nat.eqb_spec 5 (List.length ks)); [congruence|].
      unfold io_bind at 1. rewrite M. reflexivity.
    + intros L. rewrite L. cbn [Nat.eqb]. split.
      * intros e We. unfold io_bind at 1. rewrite M.
        unfold io_bind at 1, lift. unfold io_bind at 1, to_excel.
        rewrite He, We. reflexivity.
      * intros We. unfold io_bind at 1. rewrite M.
        unfold io_bind at 1, lift. unfold io_bind at 1, to_excel.
        rewrite He, We. eexists. split; [reflexivity|]. cbn.
        rewrite Hw, Hs, <- app_assoc. repeat split.
Qed.

(** The exporter on records built by [extract_data_from_text]. *)
Lemma save_built cfg data w :
  data <> [] ->
  (forall d, In d data -> exists txt f, extract_data_from_text txt f = Ok d) ->
  let output_path := os_path_join (OUTPUT_FOLDER cfg) (OUTPUT_FILE cfg) in
  (forall e, raised (makedirs (OUTPUT_FOLDER cfg)) w = Some e ->
     save_to_excel cfg data w = (Raise e, w))
  /\ (raised (makedirs (OUTPUT_FOLDER cfg)) w = None ->
      (forall e, write_error w output_path (table_of data) = Some e ->
         exists w1,
           save_to_excel cfg data w = (Raise e, w1)
           /\ workbooks w1 = workbooks w)
      /\ (write_error w output_path (table_of data) = None ->
          exists w',
            save_to_excel cfg data w = (Ok tt, w')
            /\ workbooks w' = (output_path, table_of data) :: workbooks w)).
Proof.
  intros Hne B output_path.
  destruct (save_uniform cfg data w record_keys Hne) as [H1 H2].
  - intros d Hd. apply keys_of_extracted; auto.
  - apply nodup_record_keys.
  - split; [exact H1|]. intros Rm.
    destruct (H2 Rm) as (w1 & _ & _ & Hw & _ & _ & H5).
    destruct (H5 eq_refl) as [Hr Hk]. split.
    + intros e We. exists w1. split; [apply Hr; exact We | exact Hw].
    + intros We. destruct (Hk We) as (w' & E & W & _). eauto.
Qed.



(** C10. With no records the exporter prints its warning and does nothing
    else: nothing is raised, no directory is made and no workbook written. *)
Theorem export_nothing cfg w :
  let (outcome, w') := save_to_excel cfg [] w in
  outcome = Ok tt
  /\ directories w' = directories w
  /\ workbooks w' = workbooks w
  /\ pdf_folder w' = pdf_folder w
  /\ stdout w' = stdout w ++ [NoDataToSave].
Proof. unfold save_to_excel, print. repeat split. Qed.

(** * Reading a match backwards *)

Lemma lang_seq r1 r2 w g g' :
  lang (Seq r1 r2) w g g' ->
  exists w1 w2 g1, w = w1 ++ w2 /\ lang r1 w1 g g1 /\ lang r2 w2 g1 g'.
Proof. inversion 1; subst; eauto 7. Qed.

Lemma lang_alt r1 r2 w g g' :
  lang (Alt r1 r2) w g g' -> lang r1 w g g' \/ lang r2 w g g'.
Proof. inversion 1; subst; auto. Qed.

Lemma lang_group r w g g' :
  lang (Group r) w g g' -> exists g0, lang r w g g0.
Proof. inversion 1; subst; eauto. Qed.

Lemma lang_str kw w g g' : lang (Str kw) w g g' -> ci_word kw w.
Proof. inversion 1; subst; auto. Qed.

Lemma lang_rep cs lo hi gr w g g' :
  lang (Rep cs lo hi gr) w g g' -> all_in cs w /\ (lo <= List.length w)%nat.
Proof. inversion 1; subst; auto. Qed.

Lemma lang_set cs w g g' :
  lang (Set_ cs) w g g' -> exists x, w = [x] /\ set_ci cs x = true.
Proof. inversion 1; subst; eauto. Qed.

Lemma ws_alpha_ws x : set_ci ws x = true -> set_ci alpha_ws x = true.
Proof.
  unfold set_ci, ws, alpha_ws. cbn [existsb]. rewrite orb_false_r.
  intros ->. rewrite !orb_true_r. reflexivity.
Qed.

Lemma alpha_alpha_ws x : set_ci alpha x = true -> set_ci alpha_ws x = true.
Proof.
  unfold set_ci, alpha, alpha_ws. cbn [existsb]. rewrite orb_false_r.
  rewrite !orb_true_iff. tauto.
Qed.


Lemma all_in_app cs u v : all_in cs u -> all_in cs v -> all_in cs (u ++ v).
Proof. unfold all_in. intros. apply Forall_app; auto. Qed.

Lemma all_in_weaken (cs cs' : charset) u :
  (forall x, set_ci cs x = true -> set_ci cs' x = true) ->
  all_in cs u -> all_in cs' u.
Proof. unfold all_in. intros H A. eapply Forall_impl; [|exact A]. exact H. Qed.

Lemma ci_word_newline u : ci_word [NL] u -> u = [NL].
Proof.
  intros H. inversion H as [|k x kw u' Hx Hr]; subst.
  inversion Hr; subst. apply lit_ci_newline in Hx. congruence.
Qed.

(** The terminator of the labelled rules: a newline, or one of two words. *)
Lemma terminator_cases a b w g g' :
  lang (alt [newline; lit a; lit b]) w g g' ->
  w = [NL] \/ ci_word (str a) w \/ ci_word (str b) w.
Proof.
  cbn [alt]. intros H. apply lang_alt in H as [H | H].
  - left. apply ci_word_newline. eapply lang_str; eauto.
  - apply lang_alt in H as [H | H]; apply lang_str in H; auto.
Qed.

Lemma lvt_intro t pre lab sep val term post :
  t = pre ++ lab ++ sep ++ val ++ term ++ post ->
  ci_word (str "constituency") lab \/ ci_word (str "name") lab ->
  all_in colon_ws sep -> all_in alpha_ws val -> val <> [] ->
  ci_word (str "total") term \/ ci_word (str "election") term ->
  found label_value_terminator t.
Proof.
  intros -> Hlab Hsep Hval Hne Hterm.
  exists pre, (lab ++ sep ++ val ++ term), post, None.
  split; [rewrite <- !app_assoc; reflexivity|].
  unfold label_value_terminator. cbn [cat alt].
  eapply L_seq; [|eapply L_seq; [|eapply L_seq]].
  - destruct Hlab; [apply L_alt_l | apply L_alt_r]; constructor; auto.
  - constructor; [auto | simpl; lia | exact I].
  - constructor; [auto | destruct val; [congruence | simpl; lia] | exact I].
  - destruct Hterm; [apply L_alt_l | apply L_alt_r]; constructor; auto.
Qed.

Ltac in_newline Hnl :=
  exfalso; apply Hnl; repeat (rewrite in_app_iff; simpl); tauto.

Lemma nonempty_length (w : text) : (1 <= List.length w)%nat -> w <> [].
Proof. destruct w; simpl; [lia | discriminate]. Qed.

Lemma rule1_form t :
  ~ In NL t -> found (nth 0 constituency_patterns Eps) t ->
  found label_value_terminator t.
Proof.
  intros Hnl (pre & w & post & g & E & L). cbn [nth constituency_patterns cat] in L.
  apply lang_seq in L as (wc & w1 & g1 & -> & Lc & L).
  apply lang_seq in L as (wws & w2 & g2 & -> & Lws & L).
  apply lang_seq in L as (wn & w3 & g3 & -> & Ln & L).
  apply lang_seq in L as (wsep & w4 & g4 & -> & Lsep & L).
  apply lang_seq in L as (wval & wterm & g5 & -> & Lval & Lterm).
  apply lang_str in Ln. apply lang_rep in Lsep as [Hsep _].
  apply lang_group in Lval as [g0 Lval]. apply lang_rep in Lval as [Hval Hlen].
  apply terminator_cases in Lterm as [-> | [Ht | Ht]].
  - subst t. in_newline Hnl.
  - apply (lvt_intro t (pre ++ wc ++ wws) wn wsep wval wterm post); auto.
    + rewrite E, <- !app_assoc. reflexivity.
    + apply nonempty_length; auto.
  - apply (lvt_intro t (pre ++ wc ++ wws) wn wsep wval wterm post); auto.
    + rewrite E, <- !app_assoc. reflexivity.
    + apply nonempty_length; auto.
Qed.

Lemma rule2_form t :
  ~ In NL t -> found (nth 1 constituency_patterns Eps) t ->
  found label_value_terminator t.
Proof.
  intros Hnl (pre & w & post & g & E & L). cbn [nth constituency_patterns cat] in L.
  apply lang_seq in L as (wc & w1 & g1 & -> & Lc & L).
  apply lang_seq in L as (wsep & w4 & g4 & -> & Lsep & L).
  apply lang_seq in L as (wval & wterm & g5 & -> & Lval & Lterm).
  apply lang_str in Lc. apply lang_rep in Lsep as [Hsep _].
  apply lang_group in Lval as [g0 Lval]. apply lang_rep in Lval as [Hval Hlen].
  apply terminator_cases in Lterm as [-> | [Ht | Ht]].
  - subst t. in_newline Hnl.
  - apply (lvt_intro t pre wc wsep wval wterm post); auto.
    + rewrite E, <- !app_assoc. reflexivity.
    + apply nonempty_length; auto.
  - apply (lvt_intro t pre wc wsep wval wterm post); auto.
    + rewrite E, <- !app_assoc. reflexivity.
    + apply nonempty_length; auto.
Qed.

Lemma rule4_form t :
  ~ In NL t -> found (nth 3 constituency_patterns Eps) t ->
  found label_value_terminator t.
Proof.
  intros Hnl (pre & w & post & g & E & L). cbn [nth constituency_patterns cat] in L.
  apply lang_seq in L as (wn & w1 & g1 & -> & Ln & L).
  apply lang_seq in L as (wsep & w4 & g4 & -> & Lsep & L).
  apply lang_seq in L as (wval & wterm & g5 & -> & Lval & Lterm).
  apply lang_str in Ln. apply lang_rep in Lsep as [Hsep _].
  apply lang_group in Lval as [g0 Lval]. apply lang_rep in Lval as [Hval Hlen].
  apply terminator_cases in Lterm as [-> | [Ht | Ht]].
  - subst t. in_newline Hnl.
  - apply (lvt_intro t pre wn wsep wval wterm post); auto.
    + rewrite E, <- !app_assoc. reflexivity.
    + apply nonempty_length; auto.
  - apply (lvt_intro t pre wn wsep wval wterm post); auto.
    + rewrite E, <- !app_assoc. reflexivity.
    + apply nonempty_length; auto.
Qed.

Lemma rule5_form t :
  ~ In NL t -> found (nth 4 constituency_patterns Eps) t ->
  found label_value_terminator t.
Proof.
  intros Hnl (pre & w & post & g & E & L).
  cbn [nth constituency_patterns cat alt] in L.
  apply lang_seq in L as (wc & w1 & g1 & -> & Lc & L).
  apply lang_seq in L as (wsep & w2 & g2 & -> & Lsep & L).
  apply lang_seq in L as (wval & wend & g3 & -> & Lval & Lend).
  apply lang_str in Lc. apply lang_rep in Lsep as [Hsep _].
  apply lang_group in Lval as [g0 Lval].
  apply lang_seq in Lval as (w0 & wmore & g4 & -> & L0 & Lmore).
  apply lang_set in L0 as (x & -> & Hx). apply lang_rep in Lmore as [Hmore _].
  assert (Hval : forall wws, all_in ws wws ->
                   all_in alpha_ws (([x] ++ wmore) ++ wws)).
  { intros wws Hws. repeat apply all_in_app.
    - constructor; [apply alpha_alpha_ws; auto | constructor].
    - auto.
    - eapply all_in_weaken; [apply ws_alpha_ws | auto]. }
  apply lang_alt in Lend as [Lend | Lend];
    [| apply lang_alt in Lend as [Lend | Lend]];
    apply lang_seq in Lend as (wws & wterm & g5 & -> & Lws & Lterm);
    apply lang_rep in Lws as [Hws _]; apply lang_str in Lterm.
  - apply ci_word_newline in Lterm as ->. subst t. in_newline Hnl.
  - apply (lvt_intro t pre wc wsep (([x] ++ wmore) ++ wws) wterm post); auto.
    + rewrite E, <- !app_assoc. reflexivity.
    + discriminate.
  - apply (lvt_intro t pre wc wsep (([x] ++ wmore) ++ wws) wterm post); auto.
    + rewrite E, <- !app_assoc. reflexivity.
    + discriminate.
Qed.

Lemma rule3_form t :
  found (nth 2 constituency_patterns Eps) t -> found name_then_constituency t.
Proof.
  intros (pre & w & post & g & E & L). cbn [nth constituency_patterns cat] in L.
  apply lang_seq in L as (wname & w1 & g1 & -> & Lname & L).
  apply lang_seq in L as (wws & wc & g2 & -> & Lws & Lc).
  apply lang_group in Lname as [g0 Lname].
  apply lang_seq in Lname as (w0 & wmore & g3 & -> & L0 & Lmore).
  exists pre, (w0 ++ wmore ++ wws ++ wc), post, None.
  split; [rewrite E, <- !app_assoc; reflexivity|].
  unfold name_then_constituency. cbn [cat].
  apply lang_set in L0 as (x & -> & Hx). apply lang_rep in Lmore as [Hmore Hlen].
  apply lang_rep in Lws as [Hws Hlen']. apply lang_str in Lc.
  eapply L_seq; [|eapply L_seq; [|eapply L_seq]]; constructor; auto; exact I.
Qed.


Lemma not_found r t : re_search r t = None -> ~ found r t.
Proof. intros E F. apply re_search_found in F. congruence. Qed.



(** * Further properties of the code *)

(** * Texts with the same words *)

Lemma chunks_no_space w : no_space w -> chunks w = [w].
Proof.
  induction 1 as [|c w Hc _ IH]; simpl; auto. rewrite Hc, IH. reflexivity.
Qed.

Lemma chunks_word_space w rest :
  no_space w -> chunks (w ++ SPACE :: rest) = w :: chunks rest.
Proof.
  induction 1 as [|c w Hc _ IH]; simpl; auto. rewrite Hc, IH. reflexivity.
Qed.

Lemma chunks_no_space_all s : Forall no_space (chunks s).
Proof.
  induction s as [|c s IH]; simpl.
  - repeat constructor.
  - destruct (is_space c) eqn:E.
    + constructor; [constructor | auto].
    + destruct (chunks s) as [|w rest]; inversion IH; subst;
        repeat constructor; auto.
Qed.

Lemma words_shape s : Forall (fun w => nonempty w = true /\ no_space w) (words s).
Proof.
  unfold words. apply Forall_forall. intros w H.
  apply filter_In in H as [H1 H2]. split; auto.
  pose proof (chunks_no_space_all s) as A. rewrite Forall_forall in A. auto.
Qed.

Lemma words_unwords l :
  Forall (fun w => nonempty w = true /\ no_space w) l -> words (unwords l) = l.
Proof.
  unfold words. induction 1 as [|w l [Hn Hs] Hl IH]; auto.
  destruct l as [|w' l'].
  - simpl unwords. rewrite chunks_no_space by auto. simpl. rewrite Hn. reflexivity.
  - change (unwords (w :: w' :: l')) with (w ++ SPACE :: unwords (w' :: l')).
    rewrite chunks_word_space by auto. cbn [filter]. rewrite Hn, IH. reflexivity.
Qed.

(** X1. Cleaning is idempotent and keeps the words of a text, and two texts
    with the same words, however their whitespace differs, give the same
    record. *)
Theorem same_words_same_record :
  (forall txt, clean (clean txt) = clean txt)
  /\ (forall txt, words (clean txt) = words txt)
  /\ (forall t1 t2 filename,
        words t1 = words t2 ->
        extract_data_from_text t1 filename = extract_data_from_text t2 filename).
Proof.
  assert (W : forall txt, words (clean txt) = words txt).
  { intros txt. rewrite clean_unwords. apply words_unwords, words_shape. }
  split; [|split; [exact W|]].
  - intros txt. rewrite (clean_unwords (clean txt)), W, <- clean_unwords.
    reflexivity.
  - intros t1 t2 filename E. unfold extract_data_from_text.
    rewrite !clean_unwords, E. reflexivity.
Qed.

Lemma same_words_same_record_witness :
  extract_data_from_text
    (str "Total" ++ [NL; 0x09] ++ str "electors :  45,678" ++ [NL]) (str "a.pdf")
  = extract_data_from_text (str "Total electors : 45,678") (str "a.pdf").
Proof.
  destruct same_words_same_record as (_ & _ & H). apply H.
  vm_compute. reflexivity.
Defined.

(** * Fields and their label words *)

Lemma field_rules_labelled f :
  forallb (requires (field_words f)) (rules_of f) = true.
Proof. destruct f; reflexivity. Qed.

Lemma field_words_lower f :
  forallb (fun kw => forallb is_lower_ascii kw && nonempty kw) (field_words f)
  = true.
Proof. destruct f; reflexivity. Qed.

(** X2. A field is empty when the text mentions none of the label words of
    that field, whatever the other fields find. *)
Theorem field_needs_its_label txt filename d f :
  extract_data_from_text txt filename = Ok d ->
  forallb (fun kw => negb (mentions kw txt)) (field_words f) = true ->
  dict_get (key_of f) d = Some [].
Proof.
  intros E N. rewrite (extract_get _ _ _ f E). f_equal.
  apply field_value_empty. intros p Hp. apply rule_value_no_match.
  destruct (re_search p (clean txt)) as [m|] eqn:S; auto. exfalso.
  assert (F : found p (clean txt)) by (apply re_search_found; congruence).
  pose proof (field_rules_labelled f) as Q. rewrite forallb_forall in Q.
  destruct (found_mentions _ _ _ (Q p Hp) F) as (kw & Hkw & M).
  pose proof (field_words_lower f) as L. rewrite forallb_forall in L.
  specialize (L kw Hkw). apply andb_true_iff in L as [L1 L2].
  apply mentions_clean in M; auto.
  - rewrite forallb_forall in N. specialize (N kw Hkw).
    rewrite M in N. discriminate.
  - intros ->. discriminate.
Qed.

Lemma field_needs_its_label_witness :
  exists d,
    extract_data_from_text (str "Registered voters: 900 NOTA: 4") (str "a.pdf")
      = Ok d
    /\ dict_get "valid_votes_polled" d = Some []
    /\ dict_get "total_electors" d = Some (str "900").
Proof.
  exists (record_of (str "a.pdf") [] (str "900") [] (str "4")).
  assert (E : extract_data_from_text (str "Registered voters: 900 NOTA: 4")
                (str "a.pdf")
              = Ok (record_of (str "a.pdf") [] (str "900") [] (str "4")))
    by (vm_compute; reflexivity).
  split; [exact E|]. split; [|reflexivity].
  apply (field_needs_its_label _ _ _ ValidVotes E). vm_compute. reflexivity.
Defined.

(** * Numeric fields that stay empty *)

Lemma filter_not_comma_nil s :
  filter not_comma s = [] <-> forallb is_comma s = true.
Proof.
  unfold not_comma, is_comma. induction s as [|c s IH]; simpl; [tauto|].
  destruct (c =? COMMA); simpl; [exact IH|].
  split; discriminate.
Qed.

Lemma captured_none p t :
  binds p = true -> captured p t = None -> re_search p t = None.
Proof.
  unfold captured. intros B. destruct (re_search p t) as [m|] eqn:E; auto.
  destruct (re_search_binds _ _ _ B E) as [g ->]. discriminate.
Qed.

Lemma numeric_rule_value f p t :
  is_numeric f = true ->
  rule_value f p t = option_map (filter not_comma) (captured p t).
Proof.
  intros N. unfold rule_value. destruct (captured p t); auto.
  rewrite replace_comma. destruct f; try discriminate; reflexivity.
Qed.

(** X3. A numeric field is empty exactly when no rule of the field matches
    or the first rule that matches captured commas only; in the second case
    the later rules are not consulted. *)
Theorem numeric_field_empty txt filename d f :
  extract_data_from_text txt filename = Ok d ->
  is_numeric f = true ->
  (dict_get (key_of f) d = Some [] <->
   (forall p, In p (rules_of f) -> captured p (clean txt) = None)
   \/ exists i p span,
        nth_error (rules_of f) i = Some p
        /\ captured p (clean txt) = Some span
        /\ (forall j q, (j < i)%nat -> nth_error (rules_of f) j = Some q ->
                        captured q (clean txt) = None)
        /\ forallb is_comma span = true).
Proof.
  intros E N. rewrite (extract_get _ _ _ f E). unfold field_value.
  destruct (first_value f (rules_of f) (clean txt)) as [v|] eqn:V.
  - apply first_value_some in V as (i & p & Hn & Hv & Hprev).
    rewrite numeric_rule_value in Hv by auto.
    destruct (captured p (clean txt)) as [span|] eqn:C; [|discriminate].
    injection Hv as <-.
    assert (P : forall j q, (j < i)%nat -> nth_error (rules_of f) j = Some q ->
                            captured q (clean txt) = None).
    { intros j q Hj Hq. specialize (Hprev j q Hj Hq).
      rewrite numeric_rule_value in Hprev by auto.
      destruct (captured q (clean txt)); [discriminate | reflexivity]. }
    split.
    + intros H. injection H as H. right. exists i, p, span.
      repeat split; auto. apply filter_not_comma_nil; auto.
    + intros [H | (i' & p' & span' & Hn' & C' & P' & K)].
      * rewrite (H p (nth_error_In _ _ Hn)) in C. discriminate.
      * destruct (Nat.lt_trichotomy i i') as [L | [-> | L]].
        -- rewrite (P' i p L Hn) in C. discriminate.
        -- rewrite Hn in Hn'. injection Hn' as <-. rewrite C in C'.
           injection C' as <-. f_equal. apply filter_not_comma_nil; auto.
        -- rewrite (P i' p' L Hn') in C'. discriminate.
  - split; auto. intros _. left. intros p Hp.
    apply first_value_none with (p := p) in V; auto.
    rewrite numeric_rule_value in V by auto.
    destruct (captured p (clean txt)); [discriminate | reflexivity].
Qed.

Lemma numeric_field_empty_witness :
  captured (nth 4 elector_patterns Eps) (clean comma_only_text) = Some (str "5")
  /\ exists d,
       extract_data_from_text comma_only_text (str "a.pdf") = Ok d
       /\ dict_get "total_electors" d = Some [].
Proof.
  split; [vm_compute; reflexivity|].
  exists (record_of (str "a.pdf") [] [] [] []).
  assert (E : extract_data_from_text comma_only_text (str "a.pdf")
              = Ok (record_of (str "a.pdf") [] [] [] []))
    by (vm_compute; reflexivity).
  split; [exact E|].
  apply (numeric_field_empty comma_only_text (str "a.pdf") _ Electors E eq_refl).
  right. exists 1%nat, (nth 1 elector_patterns Eps), (str ",").
  split; [reflexivity|]. split; [vm_compute; reflexivity|].
  split; [|reflexivity].
  intros [|j] q Hj Hq; [|lia]. injection Hq as <-. vm_compute. reflexivity.
Defined.

(** * Rules that never decide *)

Lemma lang_any_start r w g g' :
  lang r w g g' -> forall h, exists h', lang r w h h'.
Proof.
  induction 1; intros h.
  - eexists; constructor.
  - eexists; constructor; auto.
  - eexists; constructor; auto.
  - eexists; constructor; auto.
  - destruct (IHlang h) as [h' L]. eexists; apply L_opt_some; eauto.
  - eexists; apply L_opt_none.
  - destruct (IHlang1 h) as [h1 L1]. destruct (IHlang2 h1) as [h2 L2].
    eexists; econstructor; eauto.
  - destruct (IHlang h) as [h' L]. eexists; apply L_alt_l; eauto.
  - destruct (IHlang h) as [h' L]. eexists; apply L_alt_r; eauto.
  - destruct (IHlang h) as [h' L]. eexists; econstructor; eauto.
Qed.

(** A match of [r1 r2] holds a match of [r2]. *)
Lemma found_tail r1 r2 t : found (Seq r1 r2) t -> found r2 t.
Proof.
  intros (pre & w & post & g & -> & L).
  apply lang_seq in L as (w1 & w2 & g1 & -> & _ & L2).
  destruct (lang_any_start _ _ _ _ L2 None) as [h' L].
  exists (pre ++ w1), w2, post, h'. rewrite <- !app_assoc. auto.
Qed.

Lemma elector_rule3_shadowed t :
  found (nth 2 elector_patterns Eps) t -> found (nth 1 elector_patterns Eps) t.
Proof. intros F. apply found_tail in F. apply found_tail in F. exact F. Qed.

Lemma nota_rule5_shadowed t :
  found (nth 4 nota_patterns Eps) t -> found (nth 1 nota_patterns Eps) t.
Proof. intros F. apply found_tail in F. apply found_tail in F. exact F. Qed.

Lemma shadowed_no_capture p q t :
  binds p = true -> (found q t -> found p t) ->
  captured p t = None -> captured q t = None.
Proof.
  intros B H C. apply captured_none in C; auto.
  unfold captured. destruct (re_search q t) eqn:S; auto. exfalso.
  assert (F : found q t) by (apply re_search_found; congruence).
  apply H, re_search_found in F. congruence.
Qed.

(** X4. The third electors rule and the fifth NOTA rule never decide
    their field: a text they match is matched by the second rule of the same
    list, so each loop gives the same result without them. *)
Theorem dead_rules t data :
  (found (nth 2 elector_patterns Eps) t -> found (nth 1 elector_patterns Eps) t)
  /\ (found (nth 4 nota_patterns Eps) t -> found (nth 1 nota_patterns Eps) t)
  /\ numeric_loop "total_electors" elector_patterns t data
     = numeric_loop "total_electors" (drop_nth 2 elector_patterns) t data
  /\ numeric_loop "nota_votes" nota_patterns t data
     = numeric_loop "nota_votes" (drop_nth 4 nota_patterns) t data.
Proof.
  split; [apply elector_rule3_shadowed|]. split; [apply nota_rule5_shadowed|].
  split.
  - rewrite (numeric_loop_spec Electors) by (auto; repeat constructor).
    rewrite (numeric_loop_spec Electors) by (auto; repeat constructor).
    f_equal. unfold elector_patterns at 1 2. cbn [drop_nth first_value].
    destruct (rule_value Electors _ t) as [v1|]; auto.
    match goal with |- context [rule_value Electors ?p t] =>
      destruct (rule_value Electors p t) as [v2|] eqn:V2 end; auto.
    rewrite numeric_rule_value in V2 by auto.
    match type of V2 with context [captured ?p t] =>
      destruct (captured p t) eqn:C2; [discriminate|];
      pose proof (shadowed_no_capture p (nth 2 elector_patterns Eps) t eq_refl
                    (elector_rule3_shadowed t) C2) as C3 end.
    match goal with |- context [rule_value Electors ?p t] =>
      change p with (nth 2 elector_patterns Eps) end.
    rewrite (numeric_rule_value Electors (nth 2 elector_patterns Eps)) by auto.
    rewrite C3. reflexivity.
  - rewrite (numeric_loop_spec Nota) by (auto; repeat constructor).
    rewrite (numeric_loop_spec Nota) by (auto; repeat constructor).
    f_equal. unfold nota_patterns at 1 2. cbn [drop_nth first_value].
    destruct (rule_value Nota _ t) as [v1|]; auto.
    match goal with |- context [rule_value Nota ?p t] =>
      destruct (rule_value Nota p t) as [v2|] eqn:V2 end; auto.
    rewrite numeric_rule_value in V2 by auto.
    match type of V2 with context [captured ?p t] =>
      destruct (captured p t) eqn:C2; [discriminate|];
      pose proof (shadowed_no_capture p (nth 4 nota_patterns Eps) t eq_refl
                    (nota_rule5_shadowed t) C2) as C5 end.
    destruct (rule_value Nota _ t) as [v3|]; auto.
    destruct (rule_value Nota _ t) as [v4|]; auto.
    match goal with |- context [rule_value Nota ?p t] =>
      change p with (nth 4 nota_patterns Eps) end.
    rewrite (numeric_rule_value Nota (nth 4 nota_patterns Eps)) by auto.
    rewrite C5. reflexivity.
Qed.

(** * The shape of an extracted name *)

Lemma capture_of_match r w g g' :
  lang r w g g' ->
  g' = g
  \/ exists pre u post body h h',
       w = pre ++ u ++ post /\ g' = Some u /\ In body (group_bodies r)
       /\ lang body u h h'.
Proof.
  induction 1; simpl; auto.
  - destruct IHlang2 as [-> | (pre & u & post & body & h & h' & -> & -> & B & L)].
    + destruct IHlang1
        as [-> | (pre & u & post & body & h & h' & -> & -> & B & L)]; auto.
      right. exists pre, u, (post ++ w2), body, h, h'.
      rewrite <- !app_assoc. rewrite in_app_iff. auto.
    + right. exists (w1 ++ pre), u, post, body, h, h'.
      rewrite <- !app_assoc. rewrite in_app_iff. auto.
  - destruct IHlang as [-> | (pre & u & post & body & h & h' & -> & -> & B & L)];
      auto. right. exists pre, u, post, body, h, h'. rewrite in_app_iff. auto.
  - destruct IHlang as [-> | (pre & u & post & body & h & h' & -> & -> & B & L)];
      auto. right. exists pre, u, post, body, h, h'. rewrite in_app_iff. auto.
  - right. exists [], w, [], r, g, g'. rewrite app_nil_r. auto.
Qed.

Lemma upper_alpha_ws x : set_ci upper x = true -> set_ci alpha_ws x = true.
Proof.
  unfold set_ci, upper, alpha_ws. cbn [existsb]. rewrite orb_false_r.
  intros ->. reflexivity.
Qed.

Lemma name_body_chars body u h h' :
  In body (flat_map group_bodies constituency_patterns) ->
  lang body u h h' -> all_in alpha_ws u.
Proof.
  intros B L. unfold constituency_patterns in B.
  cbn [flat_map group_bodies cat alt app In lit plus plus_lazy star between
       newline] in B.
  destruct B as [<- | [<- | [<- | [<- | [<- | []]]]]].
  - apply lang_rep in L as [A _]; auto.
  - apply lang_rep in L as [A _]; auto.
  - apply lang_seq in L as (w0 & w1 & g1 & -> & L0 & L1).
    apply lang_set in L0 as (x & -> & Hx). apply lang_rep in L1 as [A _].
    apply all_in_app; auto. constructor; [apply upper_alpha_ws; auto | constructor].
  - apply lang_rep in L as [A _]; auto.
  - apply lang_seq in L as (w0 & w1 & g1 & -> & L0 & L1).
    apply lang_set in L0 as (x & -> & Hx). apply lang_rep in L1 as [A _].
    apply all_in_app; auto. constructor; [apply alpha_alpha_ws; auto | constructor].
Qed.

Lemma alpha_ws_name_char x :
  set_ci alpha_ws x = true -> is_space x = true \/ is_name_letter x = true.
Proof.
  unfold set_ci, alpha_ws. cbn [existsb item_ci].
  rewrite !orb_true_iff, !range_ci, sre_lower_space.
  change (ch "A") with 0x41. change (ch "Z") with 0x5A.
  change (ch "a") with 0x61. change (ch "z") with 0x7A.
  intros [(c & Hc & H) | [(c & Hc & H) | [H | H]]]; auto; try discriminate;
    right; unfold is_name_letter;
    unfold lit_ci, fixes, sre_lower, is_upper_ascii in H; tests.
Qed.

Lemma constituency_capture p t g :
  In p constituency_patterns -> captured p t = Some g ->
  all_in alpha_ws g /\ exists pre post, t = pre ++ g ++ post.
Proof.
  intros Hp C. apply captured_some in C.
  apply re_search_sound in C as (pre & w & post & -> & L).
  destruct (capture_of_match _ _ _ _ L)
    as [E | (pre' & u & post' & body & h & h' & -> & E & B & Lb)];
    [discriminate|].
  injection E as <-. split.
  - eapply name_body_chars; [|exact Lb].
    apply in_flat_map. exists p. auto.
  - exists (pre ++ pre'), (post' ++ post). rewrite <- !app_assoc. reflexivity.
Qed.

Lemma lstrip_nonspace_head s : forall c rest, lstrip s = c :: rest -> is_space c = false.
Proof. intros c rest H. eapply lstrip_head; eauto. Qed.

Lemma strip_head s c rest : strip s = c :: rest -> is_space c = false.
Proof.
  unfold strip. intros H.
  destruct (rstrip_prefix (lstrip s)) as [post E]. rewrite H in E.
  simpl in E. eapply lstrip_head; eauto.
Qed.

Lemma strip_last s front c : strip s = front ++ [c] -> is_space c = false.
Proof.
  unfold strip, rstrip. intros H. apply (f_equal (@rev char)) in H.
  rewrite rev_involutive, rev_app_distr in H. simpl in H.
  eapply lstrip_head; eauto.
Qed.

(** X5. A non-empty constituency name has more than three characters, is
    made of letters and plain spaces, neither starts nor ends with a space,
    fails every test of the reject list and occurs in the cleaned text. *)
Theorem constituency_name_shape txt filename d name :
  extract_data_from_text txt filename = Ok d ->
  dict_get "constituency_name" d = Some name ->
  name <> [] ->
  (3 < List.length name)%nat
  /\ forallb is_name_char name = true
  /\ (forall c rest, name = c :: rest -> c <> SPACE)
  /\ (forall front c, name = front ++ [c] -> c <> SPACE)
  /\ ~ rejected name
  /\ exists pre post, clean txt = pre ++ name ++ post.
Proof.
  intros E G Hne.
  pose proof (extract_get _ _ _ Constituency E) as G'. cbn [key_of] in G'.
  rewrite G in G'. injection G' as G'. unfold field_value in G'.
  destruct (first_value Constituency (rules_of Constituency) (clean txt))
    as [v|] eqn:V; [subst v | congruence].
  apply first_value_some in V as (i & p & Hn & Hv & _).
  apply nth_error_In in Hn. unfold rule_value in Hv.
  destruct (captured p (clean txt)) as [g|] eqn:C; [|discriminate].
  destruct (name_ok (strip g)) eqn:K; [|discriminate]. injection Hv as <-.
  destruct (constituency_capture p _ g Hn C) as (A & pre & post & Et).
  destruct (strip_infix g) as (a & b & Eg).
  assert (R : ~ rejected (strip g)).
  { intros R. apply name_ok_rejected in R. congruence. }
  split; [|split; [|split; [|split; [|split]]]].
  - unfold rejected in R. lia.
  - apply forallb_forall. intros c Hc. unfold is_name_char.
    assert (Hg : In c g).
    { rewrite Eg. rewrite !in_app_iff. auto. }
    unfold all_in in A. rewrite Forall_forall in A.
    destruct (alpha_ws_name_char c (A c Hg)) as [S | L].
    + assert (c = SPACE).
      { apply (clean_spaces txt); auto. rewrite Et, !in_app_iff. auto. }
      subst c. apply orb_true_r.
    + rewrite L. reflexivity.
  - intros c rest H. apply strip_head in H. intros ->. discriminate.
  - intros front c H. apply strip_last in H. intros ->. discriminate.
  - exact R.
  - exists (pre ++ a), (b ++ post). rewrite Et. rewrite Eg at 1.
    rewrite <- !app_assoc. reflexivity.
Qed.

Lemma constituency_name_shape_witness :
  exists d,
    extract_data_from_text scenario_text (str "a.pdf") = Ok d
    /\ dict_get "constituency_name" d = Some (str "Example East")
    /\ exists pre post, clean scenario_text = pre ++ str "Example East" ++ post.
Proof.
  exists (record_of (str "a.pdf") (str "Example East") (str "45678")
            (str "38234") (str "1234")).
  assert (E : extract_data_from_text scenario_text (str "a.pdf")
              = Ok (record_of (str "a.pdf") (str "Example East") (str "45678")
                      (str "38234") (str "1234")))
    by (vm_compute; reflexivity).
  split; [exact E|]. split; [reflexivity|].
  destruct (constituency_name_shape scenario_text (str "a.pdf") _
              (str "Example East") E eq_refl) as (_ & _ & _ & _ & _ & H).
  - discriminate.
  - exact H.
Defined.

(** * Letter case of the input *)

Lemma recasing_fold : recasing ascii_fold.
Proof.
  split; intros x; unfold ascii_fold, sre_lower, lower_char, is_upper_ascii;
    tests.
Qed.

Lemma recasing_upper : recasing ascii_upper.
Proof.
  split; intros x;
    unfold ascii_upper, is_lower_ascii, sre_lower, lower_char, is_upper_ascii;
    tests; repeat f_equal; lia.
Qed.

Section Recasing.
Variable phi : char -> char.
Hypothesis Hphi : recasing phi.

Lemma phi_sre x : sre_lower (phi x) = sre_lower x.
Proof. apply Hphi. Qed.

Lemma phi_space x : is_space (phi x) = is_space x.
Proof. rewrite <- (sre_lower_space (phi x)), phi_sre. apply sre_lower_space. Qed.

Lemma sre_lower_fixed c x :
  c <= 0x40 -> sre_lower x = c -> x = c.
Proof. unfold sre_lower, is_upper_ascii. intros Hc. tests. Qed.

Lemma phi_fixed c : c <= 0x40 -> phi c = c.
Proof.
  intros Hc. apply sre_lower_fixed; auto. rewrite phi_sre.
  unfold sre_lower, is_upper_ascii. tests.
Qed.

Lemma phi_fixed_inv c x : c <= 0x40 -> phi x = c -> x = c.
Proof.
  intros Hc H. apply sre_lower_fixed; auto. rewrite <- phi_sre, H.
  unfold sre_lower, is_upper_ascii. tests.
Qed.

Lemma phi_lit c x : lit_ci c (phi x) = lit_ci c x.
Proof. unfold lit_ci. rewrite phi_sre. reflexivity. Qed.

Lemma phi_set cs x : set_ci cs (phi x) = set_ci cs x.
Proof.
  unfold set_ci. induction cs as [|it cs IH]; simpl; auto. rewrite IH. f_equal.
  destruct it; simpl.
  - apply phi_lit.
  - induction (range_chars lo hi) as [|c l IHl]; simpl; auto.
    rewrite phi_lit, IHl. reflexivity.
  - rewrite phi_sre. reflexivity.
Qed.

Lemma phi_match_str w : forall s,
  match_str w (map phi s) = option_map (map phi) (match_str w s).
Proof.
  induction w as [|c w IH]; intros s; simpl; auto.
  destruct s as [|x s]; simpl; auto. rewrite phi_lit.
  destruct (lit_ci c x); auto.
Qed.

Lemma map_orelse {A B} (F : A -> B) a b :
  option_map F (orelse a b) = orelse (option_map F a) (option_map F b).
Proof. destruct a; reflexivity. Qed.

Lemma phi_stop {A B} (F : A -> B) lo s k k' :
  (forall s', k' (map phi s') = option_map F (k s')) ->
  stop_at lo (map phi s) k' = option_map F (stop_at lo s k).
Proof. intros H. destruct lo; simpl; auto. Qed.

Lemma phi_rep_greedy {A B} (F : A -> B) cs s : forall lo hi k k',
  (forall s', k' (map phi s') = option_map F (k s')) ->
  rep_greedy cs lo hi (map phi s) k' = option_map F (rep_greedy cs lo hi s k).
Proof.
  induction s as [|c s IH]; intros lo hi k k' H.
  - apply (phi_stop F lo []); auto.
  - cbn [map rep_greedy]. rewrite phi_set.
    change (phi c :: map phi s) with (map phi (c :: s)).
    destruct (more hi && set_ci cs c).
    + rewrite map_orelse, (IH _ _ k k' H), (phi_stop F lo (c :: s) k k' H).
      reflexivity.
    + apply phi_stop; auto.
Qed.

Lemma phi_rep_lazy {A B} (F : A -> B) cs s : forall lo hi k k',
  (forall s', k' (map phi s') = option_map F (k s')) ->
  rep_lazy cs lo hi (map phi s) k' = option_map F (rep_lazy cs lo hi s k).
Proof.
  induction s as [|c s IH]; intros lo hi k k' H.
  - cbn [map rep_lazy]. rewrite map_orelse. f_equal.
    apply (phi_stop F lo [] k k' H).
  - cbn [map rep_lazy]. rewrite phi_set, map_orelse. f_equal.
    + apply (phi_stop F lo (c :: s) k k' H).
    + destruct (more hi && set_ci cs c); [apply IH; auto | reflexivity].
Qed.

Lemma phi_exec {A B} (F : A -> B) r : forall s g k k',
  (forall s' g', k' (map phi s') (recased phi g') = option_map F (k s' g')) ->
  exec r (map phi s) (recased phi g) k' = option_map F (exec r s g k).
Proof.
  induction r; intros s g k k' H; cbn [exec].
  - apply H.
  - rewrite phi_match_str. destruct (match_str w s); simpl; auto.
  - destruct s as [|c s]; simpl; auto. rewrite phi_set.
    destruct (set_ci cs c); auto.
  - destruct greedy.
    + apply phi_rep_greedy. intros s'. apply H.
    + apply phi_rep_lazy. intros s'. apply H.
  - rewrite map_orelse, (IHr _ _ k k' H), H. reflexivity.
  - apply IHr1. intros s' g'. apply IHr2. exact H.
  - rewrite map_orelse, (IHr1 _ _ k k' H), (IHr2 _ _ k k' H). reflexivity.
  - apply IHr. intros s' g'. rewrite !length_map.
    rewrite firstn_map. apply (H s' (Some _)).
Qed.

Lemma phi_re_match r s :
  re_match r (map phi s) = option_map (recased phi) (re_match r s).
Proof.
  unfold re_match. apply (phi_exec (recased phi) r s None). reflexivity.
Qed.

Lemma phi_re_search r s :
  re_search r (map phi s) = option_map (recased phi) (re_search r s).
Proof.
  induction s as [|c s IH].
  - pose proof (phi_re_match r []) as E. cbn [map] in E.
    cbn [map re_search].
    destruct (re_match r []); [exact E | reflexivity].
  - pose proof (phi_re_match r (c :: s)) as E. cbn [map] in E.
    cbn [map re_search]. rewrite E. clear E.
    destruct (re_match r (c :: s)); simpl; auto.
Qed.

Lemma phi_captured p t :
  captured p (map phi t) = option_map (map phi) (captured p t).
Proof.
  unfold captured. rewrite phi_re_search.
  destruct (re_search p t) as [[g|]|]; reflexivity.
Qed.

Lemma phi_lstrip s : lstrip (map phi s) = map phi (lstrip s).
Proof.
  induction s as [|c s IH]; simpl; auto. rewrite phi_space.
  destruct (is_space c); auto.
Qed.

Lemma phi_strip s : strip (map phi s) = map phi (strip s).
Proof.
  unfold strip, rstrip. rewrite phi_lstrip, <- map_rev, phi_lstrip, map_rev.
  reflexivity.
Qed.

Lemma phi_sub_ws s : forall b, sub_ws b (map phi s) = map phi (sub_ws b s).
Proof.
  induction s as [|c s IH]; intros b; simpl; auto. rewrite phi_space.
  destruct (is_space c); [destruct b|]; simpl; rewrite IH; auto.
  rewrite (phi_fixed SPACE) by (unfold SPACE; lia). reflexivity.
Qed.

Lemma phi_clean t : clean (map phi t) = map phi (clean t).
Proof. unfold clean, re_sub_ws. rewrite phi_strip. apply phi_sub_ws. Qed.

Lemma phi_lower s : lower (map phi s) = lower s.
Proof.
  unfold lower. induction s as [|c s IH]; simpl; auto.
  destruct Hphi as [_ H]. rewrite H, IH. reflexivity.
Qed.

Lemma phi_name_ok n : name_ok (map phi n) = name_ok n.
Proof. unfold name_ok. rewrite length_map, phi_lower. reflexivity. Qed.

Lemma phi_not_comma s :
  filter not_comma (map phi s) = map phi (filter not_comma s).
Proof.
  induction s as [|c s IH]; simpl; auto.
  assert (E : not_comma (phi c) = not_comma c).
  { unfold not_comma. destruct (N.eqb_spec c COMMA) as [->|N].
    - rewrite (phi_fixed COMMA) by (unfold COMMA; lia). reflexivity.
    - destruct (N.eqb_spec (phi c) COMMA) as [E|]; auto.
      apply phi_fixed_inv in E; [congruence | unfold COMMA; lia]. }
  rewrite E. destruct (not_comma c); simpl; rewrite IH; reflexivity.
Qed.

Lemma phi_rule_value f p t :
  rule_value f p (map phi t) = option_map (map phi) (rule_value f p t).
Proof.
  unfold rule_value. rewrite phi_captured.
  destruct (captured p t) as [g|]; simpl; auto.
  destruct f; rewrite ?replace_comma, ?phi_not_comma; auto.
  rewrite phi_strip, phi_name_ok. destruct (name_ok (strip g)); reflexivity.
Qed.

Lemma phi_first_value f ps t :
  first_value f ps (map phi t) = option_map (map phi) (first_value f ps t).
Proof.
  induction ps as [|p ps IH]; simpl; auto. rewrite phi_rule_value.
  destruct (rule_value f p t); simpl; auto.
Qed.

Lemma phi_field_value f t :
  field_value f (map phi t) = map phi (field_value f t).
Proof.
  unfold field_value. rewrite phi_first_value.
  destruct (first_value f (rules_of f) t); reflexivity.
Qed.

Lemma phi_digits v : forallb is_digit v = true -> map phi v = v.
Proof.
  induction v as [|c v IH]; simpl; auto. rewrite andb_true_iff.
  intros [Hc Hv]. rewrite IH by auto. f_equal. apply phi_fixed.
  unfold is_digit in Hc. tests.
Qed.
End Recasing.

(** X6. Changing the letter case of the input changes the letter case of
    the extracted name in the same way and nothing else: the three numeric
    fields are the same. *)
Theorem letter_case_of_input phi txt filename d :
  recasing phi ->
  extract_data_from_text txt filename = Ok d ->
  exists d',
    extract_data_from_text (map phi txt) filename = Ok d'
    /\ dict_get "constituency_name" d'
       = option_map (map phi) (dict_get "constituency_name" d)
    /\ forall f, is_numeric f = true ->
                 dict_get (key_of f) d' = dict_get (key_of f) d.
Proof.
  intros H E. eexists. split; [apply extract_spec|].
  rewrite extract_spec in E. injection E as <-. split.
  - simpl. rewrite phi_clean, phi_field_value by auto. reflexivity.
  - intros f N. rewrite !record_get. f_equal.
    destruct f; try discriminate;
      rewrite phi_clean, phi_field_value by auto;
      apply phi_digits; auto; apply field_value_digits; reflexivity.
Qed.

Lemma letter_case_of_input_witness :
  exists d',
    extract_data_from_text (map ascii_upper scenario_text) (str "a.pdf") = Ok d'
    /\ dict_get "constituency_name" d' = Some (str "EXAMPLE EAST")
    /\ dict_get "total_electors" d' = Some (str "45678").
Proof.
  assert (E : extract_data_from_text scenario_text (str "a.pdf")
              = Ok (record_of (str "a.pdf") (str "Example East") (str "45678")
                      (str "38234") (str "1234")))
    by (vm_compute; reflexivity).
  destruct (letter_case_of_input ascii_upper scenario_text (str "a.pdf") _
              recasing_upper E) as (d' & E' & Hn & Hf).
  exists d'. split; [exact E'|]. split; [exact Hn|].
  exact (Hf Electors eq_refl).
Defined.

(** * The log of a batch *)

Section BatchLog.
Variable title : text -> text.
Variable cfg : config.
Variable self : PDFParser.

Lemma extract_text_log pdf_file w :
  exists w' log,
    extract_text_from_pdf title self (os_path_join (PDF_FOLDER cfg) pdf_file) w
      = (Ok (provided_text title cfg self pdf_file), w')
    /\ stdout w' = stdout w ++ log
    /\ failures log = [] /\ attempts log = [].
Proof.
  unfold extract_text_from_pdf, provided_text.
  destruct (client self) as [pd|].
  - destruct (pd _).
    + exists w, []. rewrite app_nil_r. auto.
    + eexists _, [_]. repeat split.
  - eexists _, [_]. repeat split.
Qed.

Lemma failures_app a b : failures (a ++ b) = failures a ++ failures b.
Proof. apply flat_map_app. Qed.

Lemma attempts_app a b : attempts (a ++ b) = attempts a ++ attempts b.
Proof. apply flat_map_app. Qed.

Lemma process_loop_log n files : forall i all_data w,
  exists recs w' log,
    process_loop title cfg self n i files all_data w
      = (Ok (all_data ++ recs), w')
    /\ stdout w' = stdout w ++ log
    /\ attempts log = numbered n i files
    /\ failures log
       = filter (fun f => negb (has_text title cfg self f)) files
    /\ Forall2 (fun f d =>
                  extract_data_from_text (provided_text title cfg self f) f
                  = Ok d) (kept title cfg self files) recs.
Proof.
  induction files as [|f files IH]; intros i all_data w.
  - exists [], w, []. rewrite !app_nil_r. repeat split. constructor.
  - cbn [process_loop]. unfold io_bind at 1. cbn [print].
    unfold io_bind at 1.
    match goal with |- context [extract_text_from_pdf _ _ _ ?w0] =>
      destruct (extract_text_log f w0) as (w1 & log1 & -> & S1 & F1 & A1) end.
    cbn [stdout] in S1.
    unfold kept, has_text. cbn [filter numbered].
    destruct (provided_text title cfg self f) as [|c txt] eqn:T.
    + cbn [nonempty negb]. unfold io_bind at 1. cbn [print].
      match goal with |- context [process_loop _ _ _ _ ?j _ _ ?w0] =>
        destruct (IH j all_data w0) as (recs & w' & log & -> & S2 & A2 & F2 & R)
      end.
      cbn [stdout] in S2.
      exists recs, w', ([Processing i n f] ++ log1 ++ [FailedToExtract f] ++ log).
      split; [reflexivity|]. split.
      { rewrite S2, S1, <- !app_assoc. reflexivity. }
      rewrite !attempts_app, !failures_app, A1, F1, A2, F2.
      repeat split; auto.
    + cbn [nonempty negb]. unfold io_bind at 1, lift.
      rewrite extract_spec.
      match goal with |- context [process_loop _ _ _ _ ?j _ ?a ?w0] =>
        destruct (IH j a w0) as (recs & w' & log & -> & S2 & A2 & F2 & R) end.
      eexists (_ :: recs), w', ([Processing i n f] ++ log1 ++ log).
      rewrite <- app_assoc. split; [reflexivity|]. split.
      { rewrite S2, S1, <- !app_assoc. reflexivity. }
      rewrite !attempts_app, !failures_app, A1, F1, A2, F2.
      repeat split; auto. constructor; auto. rewrite T. apply extract_spec.
Qed.

Lemma process_all_directory entries w :
  pdf_folder w = Directory entries ->
  exists recs w' log,
    process_all_pdfs title cfg self w = (Ok recs, w')
    /\ stdout w' = stdout w ++ log
    /\ attempts log
       = numbered (List.length (filter is_pdf entries)) 1 (filter is_pdf entries)
    /\ failures log
       = filter (fun f => negb (has_text title cfg self f))
           (filter is_pdf entries)
    /\ Forall2 (fun f d =>
                  extract_data_from_text (provided_text title cfg self f) f
                  = Ok d) (kept title cfg self (filter is_pdf entries)) recs
    /\ same_files w w'.
Proof.
  intros D. unfold process_all_pdfs. rewrite D.
  destruct (filter is_pdf entries) as [|f files] eqn:F.
  - eexists [], _, [_]. repeat split. constructor.
  - unfold io_bind at 1. cbn [print].
    match goal with |- context [process_loop _ _ _ ?n ?j ?l ?a ?w0] =>
      destruct (process_loop_log n l j a w0)
        as (recs & w' & log & E & S & A & Fl & R);
      destruct (process_loop_spec title cfg self n l j a w0)
        as (recs2 & w2 & E2 & _ & S2) end.
    rewrite E in E2. injection E2 as _ <-.
    cbn [stdout] in S. rewrite E.
    exists recs, w', (FoundPdfFiles (List.length (f :: files)) :: log).
    split; [reflexivity|]. split.
    { rewrite S, <- app_assoc. reflexivity. }
    repeat split; auto; destruct S2 as (? & ? & ?); simpl in *; congruence.
Qed.

Lemma filter_split_length {A} (p : A -> bool) l :
  (List.length (filter p l) + List.length (filter (fun x => negb (p x)) l)
   = List.length l)%nat.
Proof.
  induction l as [|x l IH]; simpl; auto. destruct (p x); simpl; lia.
Qed.
End BatchLog.



(** * Mock mode *)

Lemma truthy_both a b :
  negb (truthy a && truthy b) = true <-> truthy a = false \/ truthy b = false.
Proof. destruct (truthy a), (truthy b); simpl; intuition discriminate. Qed.

Lemma mock_never_fails title cfg self files :
  client self = None ->
  filter (fun f => negb (has_text title cfg self f)) files = [].
Proof.
  intros M. induction files as [|f files IH]; simpl; auto.
  unfold has_text at 1, provided_text. rewrite M, mock_text_nonempty. auto.
Qed.



(** * File names and paths *)

Lemma until_slash_app a b :
  ~ In SLASH a -> until_slash (a ++ SLASH :: b) = a.
Proof.
  induction a as [|c a IH]; simpl; intros H.
  - reflexivity.
  - destruct (N.eqb_spec c SLASH) as [->|N]; [tauto|].
    rewrite IH; auto.
Qed.

Lemma until_slash_none a : ~ In SLASH a -> until_slash a = a.
Proof.
  induction a as [|c a IH]; simpl; intros H; auto.
  destruct (N.eqb_spec c SLASH) as [->|N]; [tauto|].
  rewrite IH; auto.
Qed.

Lemma basename_app a f :
  ~ In SLASH f -> basename (a ++ SLASH :: f) = f.
Proof.
  intros H. unfold basename. rewrite rev_app_distr. simpl.
  rewrite <- app_assoc. simpl. rewrite until_slash_app.
  - apply rev_involutive.
  - rewrite <- in_rev. exact H.
Qed.

Lemma basename_plain f : ~ In SLASH f -> basename f = f.
Proof.
  intros H. unfold basename. rewrite until_slash_none.
  - apply rev_involutive.
  - rewrite <- in_rev. exact H.
Qed.

Lemma basename_join a f : ~ In SLASH f -> basename (os_path_join a f) = f.
Proof.
  intros H. unfold os_path_join.
  destruct (startswith [SLASH] f) eqn:S.
  - apply startswith_spec in S as [rest ->]. simpl in H. tauto.
  - destruct (text_eqb a [] || endswith [SLASH] a) eqn:E.
    + apply orb_true_iff in E as [E | E].
      * apply text_eqb_eq in E as ->. apply basename_plain; auto.
      * unfold endswith in E. apply startswith_spec in E as [rest E].
        apply (f_equal (@rev char)) in E. rewrite rev_involutive in E.
        simpl in E. rewrite E, <- app_assoc. simpl. apply basename_app; auto.
    + apply basename_app; auto.
Qed.

(** X9. For an entry without a slash the base name of the joined path is
    the entry, so the mock text of a listed file does not depend on the
    folder setting. *)
Theorem mock_text_ignores_folder title folder f :
  ~ In SLASH f ->
  basename (os_path_join folder f) = f
  /\ _mock_pdf_text title (os_path_join folder f) = _mock_pdf_text title f.
Proof.
  intros H. split; [apply basename_join; auto|].
  unfold _mock_pdf_text. rewrite basename_join, basename_plain by auto.
  reflexivity.
Qed.

Lemma mock_text_ignores_folder_witness :
  basename (os_path_join (str "data/2024") (str "north_ward.pdf"))
  = str "north_ward.pdf".
Proof.
  apply (mock_text_ignores_folder (fun s => s)).
  vm_compute. intuition discriminate.
Defined.

(** * The exporter on arbitrary records *)



(** * The whole run *)

Lemma forall2_built title cfg self files recs :
  Forall2 (fun f d =>
             extract_data_from_text (provided_text title cfg self f) f = Ok d)
    files recs ->
  forall d, In d recs -> exists txt f, extract_data_from_text txt f = Ok d.
Proof.
  induction 1 as [|f d files recs E _ IH]; intros d' H; simpl in H;
    [contradiction|]. destruct H as [<- | H]; eauto.
Qed.

Lemma successful_built txt f d :
  extract_data_from_text txt f = Ok d ->
  successful d = true <->
  exists fld v, dict_get (key_of fld) d = Some v /\ v <> [].
Proof.
  rewrite extract_spec. intros E. injection E as <-.
  unfold successful, record_of. cbn [existsb fst snd String.eqb Ascii.eqb Bool.eqb
                                     andb negb orb].
  set (a := field_value Constituency (clean txt)).
  set (b := field_value Electors (clean txt)).
  set (c := field_value ValidVotes (clean txt)).
  set (e := field_value Nota (clean txt)).
  split.
  - intros H.
    destruct a eqn:Ea; [|exists Constituency, a; subst a; rewrite Ea; split;
                         [reflexivity | discriminate]].
    destruct b eqn:Eb; [|exists Electors, b; subst b; rewrite Eb; split;
                         [reflexivity | discriminate]].
    destruct c eqn:Ec; [|exists ValidVotes, c; subst c; rewrite Ec; split;
                         [reflexivity | discriminate]].
    destruct e eqn:Ee; [discriminate|].
    exists Nota, e. subst e. rewrite Ee. split; [reflexivity | discriminate].
  - intros (fld & v & G & Hv).
    destruct fld; simpl in G; injection G as <-;
      destruct a, b, c, e; simpl; auto; congruence.
Qed.

Section RunFacts.
Variable title : text -> text.
Variable cfg : config.
Variable self : PDFParser.

Lemma extract_text_env pdf_path w :
  same_environment w (snd (extract_text_from_pdf title self pdf_path w))
  /\ exists txt, fst (extract_text_from_pdf title self pdf_path w) = Ok txt.
Proof.
  unfold extract_text_from_pdf.
  destruct (client self) as [pd|].
  - destruct (pd _); split; try (split; reflexivity); eexists; reflexivity.
  - split; [split; reflexivity | eexists; reflexivity].
Qed.

Lemma process_loop_env n files : forall i all_data w,
  same_environment w (snd (process_loop title cfg self n i files all_data w)).
Proof.
  induction files as [|f files IH]; intros i all_data w.
  - split; reflexivity.
  - cbn [process_loop]. unfold io_bind at 1. cbn [print].
    unfold io_bind at 1.
    match goal with |- context [extract_text_from_pdf _ _ ?p ?w0] =>
      destruct (extract_text_env p w0) as ((M1 & W1) & txt & T);
      destruct (extract_text_from_pdf title self p w0) as [r w1] end.
    cbn [fst snd] in *. subst r. cbn [mkdir_error write_error] in M1, W1.
    destruct txt as [|c txt].
    + unfold io_bind at 1. cbn [print].
      match goal with |- context [process_loop _ _ _ _ ?j _ ?a ?w0] =>
        destruct (IH j a w0) as (M2 & W2) end.
      cbn [mkdir_error write_error] in M2, W2. split; congruence.
    + unfold io_bind at 1, lift. rewrite extract_spec.
      match goal with |- context [process_loop _ _ _ _ ?j _ ?a ?w0] =>
        destruct (IH j a w0) as (M2 & W2) end.
      split; congruence.
Qed.

Lemma process_all_env w :
  same_environment w (snd (process_all_pdfs title cfg self w)).
Proof.
  unfold process_all_pdfs. destruct (pdf_folder w) as [| |entries].
  - split; reflexivity.
  - split; reflexivity.
  - destruct (filter is_pdf entries) as [|f files].
    + split; reflexivity.
    + unfold io_bind at 1. cbn [print].
      match goal with |- context [process_loop _ _ _ ?n ?j ?l ?a ?w0] =>
        destruct (process_loop_env n l j a w0) as (M & W) end.
      cbn [mkdir_error write_error] in M, W. split; congruence.
Qed.
End RunFacts.

(** The call of [os.makedirs] in main.py either raises and changes nothing,
    or returns with a folder at [config.PDF_FOLDER]. *)
Lemma ensure_cases cfg w :
  (exists e,
     ensure_pdf_folder cfg w = (Raise e, w)
     /\ raised (ensure_pdf_folder cfg) w = Some e)
  \/ (exists w1,
        ensure_pdf_folder cfg w = (Ok tt, w1)
        /\ raised (ensure_pdf_folder cfg) w = None
        /\ pdf_folder w1 = Directory (listing (pdf_folder w))
        /\ directories w1 = directories w /\ workbooks w1 = workbooks w
        /\ same_environment w w1).
Proof.
  unfold raised, ensure_pdf_folder. destruct (PDF_FOLDER cfg) as [|c path].
  - left. eexists. split; reflexivity.
  - destruct (pdf_folder w) as [| |entries] eqn:F.
    + destruct (mkdir_error w (c :: path)) as [e|].
      * left. eexists. split; reflexivity.
      * right. eexists. repeat split.
    + left. eexists. split; reflexivity.
    + right. exists w. rewrite F. repeat split.
Qed.


Lemma found_by_search r t : re_search r t <> None -> found r t.
Proof. apply re_search_found. Qed.

Lemma dead_rules_witness :
  found (nth 1 elector_patterns Eps) (str "Total electors: 7")
  /\ found (nth 1 nota_patterns Eps) (str "Option NOTA: 3").
Proof.
  split.
  - destruct (dead_rules (str "Total electors: 7") []) as (H & _).
    apply H, found_by_search. vm_compute. discriminate.
  - destruct (dead_rules (str "Option NOTA: 3") []) as (_ & H & _).
    apply H, found_by_search. vm_compute. discriminate.
Defined.


(** X12. The summary of main counts a record as successful exactly when
    one of its four extracted fields is not empty; a record of a text
    without label words never counts. *)
Theorem successful_means_a_field txt filename d :
  extract_data_from_text txt filename = Ok d ->
  (successful d = true <->
   exists f v, dict_get (key_of f) d = Some v /\ v <> [])
  /\ (no_labels txt = true -> successful d = false).
Proof.
  intros E. split; [eapply successful_built; eauto|].
  intros N. destruct (successful d) eqn:S; auto.
  apply (successful_built _ _ _ E) in S as (f & v & G & Hv).
  rewrite (extract_get _ _ _ f E) in G. injection G as <-.
  exfalso. apply Hv. apply field_value_empty. intros p Hp.
  apply rule_value_no_match. eapply no_labels_no_match; eauto.
Qed.

Lemma successful_means_a_field_witness :
  exists d,
    extract_data_from_text no_label_text (str "a.pdf") = Ok d
    /\ successful d = false.
Proof.
  exists (record_of (str "a.pdf") [] [] [] []).
  assert (E : extract_data_from_text no_label_text (str "a.pdf")
              = Ok (record_of (str "a.pdf") [] [] [] []))
    by (vm_compute; reflexivity).
  split; [exact E|].
  destruct (successful_means_a_field no_label_text (str "a.pdf") _ E) as [_ H].
  apply H. vm_compute. reflexivity.
Defined.
